(** * Schedule-tree matcher and loop-iterator naming of the polyhedral core

    A shallow embedding of

    - [tc/core/polyhedral/schedule_tree_matcher.cc]
      ([isSupportedReduction], [isReductionUpdateId], [reductionUpdates],
      [isSingleReductionWithin]) and
    - [tc/core/polyhedral/codegen.cc] ([Codegen::makeLoopIterators]),

    together with the properties the specification states about them.

    The affine-set library (isl) and the expression IR (Halide) are
    consumed by the code, not defined by it.  They are modelled here by
    finite sets of integer points ([gset]) and by an inductive expression
    type whose statement handles carry the address of the node they point
    to, so that identity ([same_as]) and structural equality can be told
    apart. *)

From stdpp Require Import gmap strings list fin_maps fin_sets pretty.
From Equations Require Import Equations.

Local Open Scope Z_scope.
Set Warnings "-register-all,-clear-no-such-hyp".

(** ** Outcomes

    A C++ call either returns a value, stops on a failed [TC_CHECK] (a
    fatal diagnostic carrying the streamed message), or runs into an
    access the language leaves undefined (a null handle dereferenced, an
    empty vector indexed). *)

Inductive outcome (A : Type) : Type :=
| Returned (a : A)
| Fatal (msg : string)
| Undefined.
Arguments Returned {A} a.
Arguments Fatal {A} msg.
Arguments Undefined {A}.

#[global] Instance outcome_ret : MRet outcome := λ A a, Returned a.
#[global] Instance outcome_bind : MBind outcome := λ A B f m,
  match m with
  | Returned a => f a
  | Fatal msg => Fatal msg
  | Undefined => Undefined
  end.
#[global] Instance outcome_fmap : FMap outcome := λ A B f m,
  match m with
  | Returned a => Returned (f a)
  | Fatal msg => Fatal msg
  | Undefined => Undefined
  end.

Definition returns {A} (m : outcome A) : Prop := ∃ a, m = Returned a.
Definition fails_fatally {A} (m : outcome A) : Prop := ∃ msg, m = Fatal msg.

(** ** Identifiers *)

(** [isl::ctx]: a handle on a naming context. *)
Definition isl_ctx := N.

(** Modelled from the spec: [isl::id], which isl.h declares and this
    repository only uses.  An Identifier is "an opaque, context-scoped
    symbolic name with value equality": it is determined by its context
    and its name, and building an identifier of a name the context
    already holds gives that identifier. *)
Record isl_id : Type := mk_isl_id { id_ctx : isl_ctx; id_name : string }.

#[global] Instance isl_id_eq_dec : EqDecision isl_id.
Proof. solve_decision. Defined.
#[global] Instance isl_id_countable : Countable isl_id.
Proof.
  apply (inj_countable' (λ i, (id_ctx i, id_name i))
                        (λ p, mk_isl_id p.1 p.2)).
  by intros [].
Defined.

Module Codegen.

(** [ss << prefix << i]: the prefix followed by the decimal rendering of
    the [int] i. *)
Definition iterator_name (prefix : string) (i : Z) : string :=
  prefix +:+ pretty i.

(** The body of [for (int i = 0; i < n; ++i)], entered with counter [i]
    and the vector built so far.  The counter never exceeds [n], so the
    [int] increment does not wrap. *)
Equations? makeLoopIterators_loop (ctx : isl_ctx) (n : Z) (prefix : string)
    (i : Z) (loopIterators : list isl_id) : list isl_id
    by wf (Z.to_nat (n - i)) lt :=
  makeLoopIterators_loop ctx n prefix i loopIterators with decide (i < n) => {
    | left _ :=
        makeLoopIterators_loop ctx n prefix (i + 1)
          (loopIterators ++ [mk_isl_id ctx (iterator_name prefix i)]);
    | right _ := loopIterators }.
Proof. lia. Qed.

(** [Codegen::makeLoopIterators]: no statement of it can fail. *)
Definition makeLoopIterators (ctx : isl_ctx) (n : Z) (prefix : string)
    : outcome (list isl_id) :=
  Returned (makeLoopIterators_loop ctx n prefix 0 []).

End Codegen.

(** ** Affine sets and maps

    The types and operations of isl.h are not part of the sources; they
    are modelled on finite sets of integer points, with the meaning the
    specification gives them. *)

(** Modelled from the spec: a statement instance, a "pair of statement
    identifier + integer instance coordinates". *)
Definition point : Type := isl_id * list Z.

(** Modelled from the spec: [isl::union_set], "an affine set of statement
    instances"; here a finite one. *)
Abbreviation union_set := (gset point).

(** Modelled from the spec: [isl::union_map], a relation between tuples
    of any two kinds; here a finite set of pairs. *)
Abbreviation union_map A B := (gset (A * B)).

(** The space of a tuple: its identifier and its dimension.  A union set
    holds one set per space. *)
Definition space : Type := isl_id * nat.
Definition space_of (x : point) : space := (x.1, length x.2).

(** Modelled from the spec: [isl::set], a "maximal per-statement
    component" of a Domain: the points of a union set that live in one
    space. *)
Record isl_set : Type := mk_isl_set { get_space : space; set_points : union_set }.

Definition get_tuple_id (s : isl_set) : isl_id := (get_space s).1.

(** Modelled from the spec: [isl::union_set::empty]. *)
Definition union_set_empty : union_set := ∅.

(** Modelled from the spec: [update.unite(set)], the set union. *)
Definition unite (u : union_set) (s : isl_set) : union_set := u ∪ set_points s.

Definition spaces (domain : union_set) : gset space := set_map space_of domain.

Definition extract_set (domain : union_set) (sp : space) : isl_set :=
  mk_isl_set sp (filter (λ x, space_of x = sp) domain).

(** Modelled from the spec: the sets [foreach_set] visits, one for each
    space of the domain.  isl leaves the order unspecified; the order
    chosen here is that of [elements], and the statements below that
    depend on the order are made for every permutation of it. *)
Definition sets_of (domain : union_set) : list isl_set :=
  extract_set domain <$> elements (spaces domain).

(** Modelled from the spec: [foreach_set].  The callback runs on each
    set in turn, threading the state it captures by reference; a callback
    that does not return ends the traversal. *)
Fixpoint foreach {A St : Type} (l : list A) (fn : A → St → outcome St)
    (st : St) : outcome St :=
  match l with
  | [] => mret st
  | s :: l' => st' ← fn s st; foreach l' fn st'
  end.

(** Modelled from the spec: [isl::multi_union_pw_aff], a Schedule Prefix:
    a "map from statement instances to the loop-iteration coordinates
    already fixed", defined on an explicit domain. *)
Abbreviation multi_union_pw_aff := (gmap point (list Z)).

Section relations.
Context `{Countable A, Countable B, Countable C}.

(** Modelled from the spec: [isl::union_map::from(prefix)], the graph of
    the function. *)
Definition union_map_from (prefix : gmap A B) : union_map A B :=
  map_to_set pair prefix.

(** Modelled from the spec: [m.intersect_domain(domain)], the pairs of
    [m] whose first component is in [domain]. *)
Definition intersect_domain (m : union_map A B) (domain : gset A)
    : union_map A B :=
  filter (λ p, p.1 ∈ domain) m.

(** Modelled from the spec: [m.apply_domain(m2)], which replaces each
    domain element of [m] by its images under [m2]. *)
Definition apply_domain (m : union_map A B) (m2 : union_map A C)
    : union_map C B :=
  set_bind (λ p : A * B,
    set_map (D:=gset (C * B)) (λ q : A * C, (q.2, p.2))
      (filter (λ q : A * C, q.1 = p.1) m2)) m.

(** Modelled from the spec: [m.is_single_valued()], "each input maps to
    at most one output". *)
Definition is_single_valued (m : union_map A B) : bool :=
  bool_decide (set_Forall (λ p, set_Forall (λ q, p.1 = q.1 → p.2 = q.2) m) m).
End relations.

(** ** Expressions and statements

    The Halide IR is not part of the sources either. *)

(** Modelled from the spec: the expression nodes of the IR that the
    matcher tells apart, and some of those it does not. *)
Inductive Expr : Type :=
| IntImm (value : Z)
| Variable_ (name : string)
| Add (a b : Expr)
| Sub (a b : Expr)
| Mul (a b : Expr)
| Min (a b : Expr)
| Max (a b : Expr)
| Call (name : string) (args : list Expr).

(** Modelled from the spec: the assignment node, with its right-hand
    sides [values]. *)
Record ProvideNode : Type :=
  mk_Provide { provide_name : string; values : list Expr; provide_args : list Expr }.

(** Modelled from the spec: the statement nodes of the IR. *)
Inductive StmtNode : Type :=
| Provide (p : ProvideNode)
| Store (name : string) (value index : Expr)
| Evaluate (value : Expr)
| AssertStmt (condition message : Expr).

(** Modelled from the spec: a statement handle, which is undefined or
    refers to "the same underlying expression-tree node" as every copy
    of it; [ptr] is the address of that node. *)
Inductive Stmt : Type :=
| Stmt_undefined
| Stmt_at (ptr : N) (node : StmtNode).

Definition get_ptr (s : Stmt) : option N :=
  match s with Stmt_undefined => None | Stmt_at ptr _ => Some ptr end.

Definition get_node (s : Stmt) : option StmtNode :=
  match s with Stmt_undefined => None | Stmt_at _ node => Some node end.

(** Modelled from the spec: [a.same_as(b)], identity of the nodes, "not
    merely equal contents". *)
Definition same_as (a b : Stmt) : bool := bool_decide (get_ptr a = get_ptr b).

(** [stmt.as<Provide>()]: the node when it is a [Provide], null otherwise. *)
Definition as_Provide (s : Stmt) : option ProvideNode :=
  match s with Stmt_at _ (Provide p) => Some p | _ => None end.

(** [e.as<Call>()], as the arguments of the call. *)
Definition as_Call (e : Expr) : option (list Expr) :=
  match e with Call _ args => Some args | _ => None end.

(** [e.as<Add>()], as the two operands. *)
Definition as_Add (e : Expr) : option (Expr * Expr) :=
  match e with Add a b => Some (a, b) | _ => None end.

(** [p->field] on a pointer that may be null. *)
Definition deref {A} (p : option A) : outcome A :=
  match p with Some a => Returned a | None => Undefined end.

(** [v[i]] on a [std::vector]. *)
Definition index {A} (v : list A) (i : nat) : outcome A := deref (v !! i).

(** ** The Scop *)

(** An entry of [scop.halide.reductions]. *)
Record Reduction : Type := mk_Reduction { update : Stmt; dims : list nat }.

Record Scop : Type := mk_Scop {
  statements : gmap isl_id Stmt;          (* scop.halide.statements *)
  reductions : list Reduction;            (* scop.halide.reductions *)
  body_reductions : union_map point point (* scop.body.reductions *)
}.

(** [m.count(k)] and [m.at(k)] on a [std::unordered_map]. *)
Definition count (m : gmap isl_id Stmt) (k : isl_id) : nat :=
  match m !! k with Some _ => 1 | None => 0 end.

Definition at_ (m : gmap isl_id Stmt) (k : isl_id) : outcome Stmt :=
  match m !! k with Some v => Returned v | None => Fatal "out_of_range" end.

Module Matcher.

(** Does the given statement perform a supported type of reduction?
    Only addition is supported.  The pointer [provide] and the two
    vectors are used without a check. *)
Definition isSupportedReduction (stmt : Stmt) : outcome bool :=
  provide ← deref (as_Provide stmt);
  v0 ← index (values provide) 0;
  match as_Call v0 with
  | Some args =>
      a0 ← index args 0;
      match as_Add a0 with Some _ => mret true | None => mret false end
  | None => mret false
  end.

(** The [for] loop over [scop.halide.reductions]. *)
Fixpoint isReductionUpdateId_loop (rs : list Reduction) (provideNode : Stmt)
    (reductionDims : list nat) : bool * list nat :=
  match rs with
  | [] => (false, reductionDims)
  | iup :: rs' =>
      if same_as (update iup) provideNode then (true, dims iup)
      else isReductionUpdateId_loop rs' provideNode reductionDims
  end.

(** The message streamed into a failing [TC_CHECK_EQ]. *)
Definition not_a_statement (id : isl_id) : string :=
  "id is not a statement in scop" +:+ id_name id.

(** If [id] is the statement identifier of an update statement of a
    supported type of reduction, returns the corresponding reduction
    dimensions in [reductionDims]: the result is the boolean with the
    contents of [reductionDims] on exit. *)
Definition isReductionUpdateId (id : isl_id) (scop : Scop)
    (reductionDims : list nat) : outcome (bool * list nat) :=
  if decide (count (statements scop) id = 1%nat) then
    provideNode ← at_ (statements scop) id;
    supported ← isSupportedReduction provideNode;
    if negb supported then mret (false, reductionDims)
    else mret (isReductionUpdateId_loop (reductions scop) provideNode reductionDims)
  else Fatal (not_a_statement id).

(** The callback of [reductionUpdates]; [update] is captured by reference. *)
Definition reductionUpdates_fn (scop : Scop) (set : isl_set)
    (update : union_set) : outcome union_set :=
  let setId := get_tuple_id set in
  '(isUpdate, reductionDims) ← isReductionUpdateId setId scop [];
  if isUpdate : bool then mret (unite update set) else mret update.

(** [reductionUpdates] with the sets visited in the order of [sets]. *)
Definition reductionUpdates_over (sets : list isl_set) (scop : Scop)
    : outcome union_set :=
  foreach sets (reductionUpdates_fn scop) union_set_empty.

Definition reductionUpdates (domain : union_set) (scop : Scop)
    : outcome union_set :=
  reductionUpdates_over (sets_of domain) scop.

Definition isSingleReductionWithin (domain : union_set)
    (prefix : multi_union_pw_aff) (scop : Scop) : bool :=
  let reductions := body_reductions scop in
  let reductions := intersect_domain reductions domain in
  let prefixMap := union_map_from prefix in
  let prefixToReduction := apply_domain reductions prefixMap in
  is_single_valued prefixToReduction.

End Matcher.

(** ** Vocabulary of the statements below *)

#[global] Instance outcome_eq_dec `{EqDecision A} : EqDecision (outcome A).
Proof. solve_decision. Defined.

(** Every statement identifier of the domain is in the registry. *)
Definition all_registered (domain : union_set) (scop : Scop) : Prop :=
  ∀ x, x ∈ domain → is_Some (statements scop !! x.1).

(** The shape the supported-reduction test relies on: the statement is a
    [Provide] node with at least one value, and when its first value is
    a call, that call has at least one argument. *)
Definition well_shaped (s : Stmt) : bool :=
  match s with
  | Stmt_at _ (Provide p) =>
      match values p with
      | [] => false
      | Call _ [] :: _ => false
      | _ :: _ => true
      end
  | _ => false
  end.

(** Every statement registered for an identifier of the domain has that
    shape. *)
Definition all_well_shaped (domain : union_set) (scop : Scop) : Prop :=
  ∀ x s, x ∈ domain → statements scop !! x.1 = Some s → well_shaped s = true.

(** The statement is an assignment whose right-hand side is a call whose
    first argument is an addition. *)
Definition addition_update (s : Stmt) : Prop :=
  ∃ ptr name f a b cargs rest pargs,
    s = Stmt_at ptr
          (Provide (mk_Provide name (Call f (Add a b :: cargs) :: rest) pargs)).

(** The verdict of [isReductionUpdateId] on an identifier, without the
    reduction dimensions. *)
Definition classify (scop : Scop) (id : isl_id) : outcome bool :=
  fst <$> Matcher.isReductionUpdateId id scop [].

Definition is_update (scop : Scop) (x : point) : bool :=
  bool_decide (classify scop x.1 = Returned true).

(** The union of two results, when both calls return. *)
Definition unite_outcomes (a b : outcome union_set) : outcome union_set :=
  u1 ← a; u2 ← b; mret (u1 ∪ u2).

(** The points of the visited sets that are classified as updates. *)
Definition selected (scop : Scop) (l : list isl_set) : union_set :=
  ⋃ (set_points <$>
       filter (λ s, classify scop (get_tuple_id s) = Returned true) l).

(** ** A small Scop

    Four statements over one context: [S0] accumulates with an addition,
    [S1] with a multiplication, [S2] holds a second node equal in content
    to that of [S0], [S3] is an initialisation.  The catalog lists the
    nodes of [S0] and [S1].  [S4] is registered to a statement that is
    not an assignment, and [T] is not registered at all. *)

Definition ex_S0 : isl_id := mk_isl_id 0%N "S0".
Definition ex_S1 : isl_id := mk_isl_id 0%N "S1".
Definition ex_S2 : isl_id := mk_isl_id 0%N "S2".
Definition ex_S3 : isl_id := mk_isl_id 0%N "S3".
Definition ex_S4 : isl_id := mk_isl_id 0%N "S4".
Definition ex_T : isl_id := mk_isl_id 0%N "T".
Definition ex_R : isl_id := mk_isl_id 0%N "R".

Definition ex_add_node : StmtNode :=
  Provide (mk_Provide "C"
    [Call "ReductionUpdate"
       [Add (Call "C" [Variable_ "i"]) (Call "A" [Variable_ "i"; Variable_ "k"]);
        Variable_ "k"]]
    [Variable_ "i"]).

Definition ex_mul_node : StmtNode :=
  Provide (mk_Provide "D"
    [Call "ReductionUpdate"
       [Mul (Call "D" [Variable_ "i"]) (Call "A" [Variable_ "i"; Variable_ "k"]);
        Variable_ "k"]]
    [Variable_ "i"]).

Definition ex_init_node : StmtNode :=
  Provide (mk_Provide "C" [IntImm 0] [Variable_ "i"]).

Definition ex_add : Stmt := Stmt_at 1 ex_add_node.
Definition ex_mul : Stmt := Stmt_at 2 ex_mul_node.
Definition ex_add_copy : Stmt := Stmt_at 3 ex_add_node.
Definition ex_init : Stmt := Stmt_at 4 ex_init_node.
Definition ex_evaluate : Stmt := Stmt_at 5 (Evaluate (IntImm 0)).

Definition ex_scop : Scop :=
  mk_Scop
    {[ ex_S0 := ex_add; ex_S1 := ex_mul; ex_S2 := ex_add_copy;
       ex_S3 := ex_init; ex_S4 := ex_evaluate ]}
    [mk_Reduction ex_add [1%nat]; mk_Reduction ex_mul [1%nat]]
    {[ ((ex_S0, [0; 0]), (ex_R, [0])); ((ex_S0, [0; 1]), (ex_R, [0]));
       ((ex_S0, [1; 0]), (ex_R, [1])); ((ex_S1, [0; 0]), (ex_R, [7])) ]}.

Definition ex_sums : union_set := {[ (ex_S0, [0; 0]); (ex_S0, [0; 1]); (ex_S0, [1; 0]) ]}.
Definition ex_others : union_set := {[ (ex_S1, [0; 0]); (ex_S2, [0; 0]); (ex_S3, [0]) ]}.
Definition ex_domain : union_set := ex_sums ∪ ex_others.
Definition ex_unshaped : union_set := {[ (ex_S0, [0; 0]); (ex_S4, [0]) ]}.
Definition ex_unregistered : union_set := {[ (ex_S0, [0; 0]); (ex_T, [0]) ]}.
Definition ex_corrupted : union_set := {[ (ex_S4, [0]); (ex_T, [0]) ]}.

(** A domain with an instance of [S4] and one of [Z], which is not
    registered either. *)
Definition ex_Z : isl_id := mk_isl_id 0%N "Z".
Definition ex_crash : union_set := {[ (ex_S4, [0]); (ex_Z, [0]) ]}.

(** The prefix that fixes the outer coordinate [i] of [S0[i, k]] and
    [S1[i, k]], and the prefix of the root, which fixes nothing. *)
Definition ex_prefix_i : multi_union_pw_aff :=
  {[ (ex_S0, [0; 0]) := [0]; (ex_S0, [0; 1]) := [0]; (ex_S0, [1; 0]) := [1];
     (ex_S1, [0; 0]) := [0] ]}.
Definition ex_prefix_root : multi_union_pw_aff :=
  {[ (ex_S0, [0; 0]) := []; (ex_S0, [0; 1]) := []; (ex_S0, [1; 0]) := [];
     (ex_S1, [0; 0]) := [] ]}.

(** Two instances of [S0] with the same outer coordinate, and the one
    with another. *)
Definition ex_row0 : union_set := {[ (ex_S0, [0; 0]); (ex_S0, [0; 1]) ]}.
Definition ex_row1 : union_set := {[ (ex_S0, [1; 0]) ]}.

(** The prefix that fixes both coordinates of [S0[i, k]]. *)
Definition ex_prefix_ik : multi_union_pw_aff :=
  {[ (ex_S0, [0; 0]) := [0; 0]; (ex_S0, [0; 1]) := [0; 1];
     (ex_S0, [1; 0]) := [1; 0] ]}.

(** A catalog that lists the node of [S0] twice, with different
    reduction dimensions. *)
Definition ex_scop_twice : Scop :=
  mk_Scop (statements ex_scop)
    [mk_Reduction ex_mul [0%nat]; mk_Reduction ex_add [1%nat];
     mk_Reduction ex_add [2%nat]]
    (body_reductions ex_scop).

(** ** The iterator name generator *)

Section iterator_names.
Import Codegen.
Context (ctx : isl_ctx) (prefix : string).

Lemma iterator_name_inj : Inj (=) (=) (iterator_name prefix).
Proof.
  intros i j Hij. unfold iterator_name in Hij.
  by apply (inj (String.append prefix)), (inj pretty) in Hij.
Qed.

Lemma makeLoopIterators_loop_spec n i acc :
  makeLoopIterators_loop ctx n prefix i acc
  = acc ++ ((λ k, mk_isl_id ctx (iterator_name prefix k)) <$> seqZ i (n - i)).
Proof.
  funelim (makeLoopIterators_loop ctx n prefix i acc).
  - match goal with IH : makeLoopIterators_loop _ _ _ _ _ = _ ++ _ |- _ =>
      rewrite IH end.
    rewrite (seqZ_cons i (n - i)) by lia. cbn [fmap list_fmap].
    rewrite <- app_assoc. cbn [app].
    by replace (Z.succ i) with (i + 1) by lia;
       replace (Z.pred (n - i)) with (n - (i + 1)) by lia.
  - rewrite seqZ_nil by lia. by rewrite app_nil_r.
Qed.

Lemma makeLoopIterators_eq n :
  makeLoopIterators ctx n prefix
  = Returned ((λ k, mk_isl_id ctx (iterator_name prefix k)) <$> seqZ 0 n).
Proof.
  unfold makeLoopIterators. rewrite makeLoopIterators_loop_spec.
  by rewrite Z.sub_0_r.
Qed.

Lemma mk_isl_id_name_inj :
  Inj (=) (=) (λ k, mk_isl_id ctx (iterator_name prefix k)).
Proof. intros i j [= Hij]. by apply iterator_name_inj. Qed.

End iterator_names.

Example makeLoopIterators_3_i :
  Codegen.makeLoopIterators 7%N 3 "i"
  = Returned [mk_isl_id 7%N "i0"; mk_isl_id 7%N "i1"; mk_isl_id 7%N "i2"].
Proof. reflexivity. Qed.

Example makeLoopIterators_12_names :
  id_name <$> Codegen.makeLoopIterators_loop 0%N 12 "c" 0 []
  = ["c0"; "c1"; "c2"; "c3"; "c4"; "c5"; "c6"; "c7"; "c8"; "c9"; "c10"; "c11"].
Proof. reflexivity. Qed.

(** C7: for a count [n >= 0], [makeLoopIterators] returns exactly [n]
    identifiers of the given context; the i-th one is named by the prefix
    followed by the decimal rendering of i; the names, hence the
    identifiers, are pairwise distinct; [n = 0] gives the empty sequence;
    and the names are the same in every context and every run, since they
    are a function of [n] and the prefix alone. *)
Theorem makeLoopIterators_names (ctx : isl_ctx) (n : Z) (prefix : string) :
  0 ≤ n →
  ∃ ids : list isl_id,
    Codegen.makeLoopIterators ctx n prefix = Returned ids
    ∧ length ids = Z.to_nat n
    ∧ (∀ i : nat, Z.of_nat i < n →
         ids !! i = Some (mk_isl_id ctx (prefix +:+ pretty (Z.of_nat i))))
    ∧ NoDup ids
    ∧ NoDup (id_name <$> ids)
    ∧ (n = 0 → ids = [])
    ∧ (∀ ctx', ∃ ids', Codegen.makeLoopIterators ctx' n prefix = Returned ids'
                       ∧ id_name <$> ids' = id_name <$> ids).
Proof.
  intros Hn. eexists. split; [apply makeLoopIterators_eq|].
  repeat split.
  - by rewrite length_fmap, length_seqZ.
  - intros i Hi. rewrite list_lookup_fmap, lookup_seqZ_lt by done.
    by rewrite Z.add_0_l.
  - apply NoDup_fmap_2; [apply mk_isl_id_name_inj | apply NoDup_seqZ].
  - rewrite <- list_fmap_compose.
    apply NoDup_fmap_2; [|apply NoDup_seqZ].
    intros i j Hij. by apply (iterator_name_inj prefix).
  - by intros ->.
  - intros ctx'. eexists. split; [apply makeLoopIterators_eq|].
    by rewrite <- !list_fmap_compose.
Qed.

Lemma makeLoopIterators_names_witness :
  ∃ ids : list isl_id,
    Codegen.makeLoopIterators 7%N 3 "i" = Returned ids
    ∧ length ids = 3%nat
    ∧ (∀ i : nat, Z.of_nat i < 3 →
         ids !! i = Some (mk_isl_id 7%N ("i" +:+ pretty (Z.of_nat i))))
    ∧ NoDup ids
    ∧ NoDup (id_name <$> ids)
    ∧ ((3:Z) = 0 → ids = [])
    ∧ (∀ ctx', ∃ ids', Codegen.makeLoopIterators ctx' 3 "i" = Returned ids'
                       ∧ id_name <$> ids' = id_name <$> ids).
Proof. apply (makeLoopIterators_names 7%N 3 "i"). lia. Defined.

(** C8, as stated, fails: two calls with the same prefix and count in the
    same context return the very same identifier. *)
Lemma makeLoopIterators_calls_collide :
  Codegen.makeLoopIterators 7%N 1 "i" = Returned [mk_isl_id 7%N "i0"]
  ∧ ¬ (∀ ids1 ids2 x y,
         Codegen.makeLoopIterators 7%N 1 "i" = Returned ids1 →
         Codegen.makeLoopIterators 7%N 1 "i" = Returned ids2 →
         x ∈ ids1 → y ∈ ids2 → x ≠ y).
Proof.
  split; [reflexivity|]. intros Hfresh.
  apply (Hfresh [mk_isl_id 7%N "i0"] [mk_isl_id 7%N "i0"]
           (mk_isl_id 7%N "i0") (mk_isl_id 7%N "i0"));
    try reflexivity; apply list_elem_of_singleton; reflexivity.
Qed.

(** C8, amended: the identifiers are a function of the context, the
    count and the prefix, so two calls with the same prefix and count
    return the same identifiers; identifiers minted by two calls in one
    context are equal exactly when their names (prefix followed by the
    index) are equal. *)
Theorem makeLoopIterators_collide_iff (ctx : isl_ctx) (n1 n2 : Z)
    (p1 p2 : string) (ids1 ids2 : list isl_id) :
  Codegen.makeLoopIterators ctx n1 p1 = Returned ids1 →
  Codegen.makeLoopIterators ctx n2 p2 = Returned ids2 →
  (n1 = n2 → p1 = p2 → ids1 = ids2)
  ∧ (∀ (i j : nat) x y, ids1 !! i = Some x → ids2 !! j = Some y →
       (x = y ↔ p1 +:+ pretty (Z.of_nat i) = p2 +:+ pretty (Z.of_nat j))).
Proof.
  rewrite !makeLoopIterators_eq. intros [= <-] [= <-]. split.
  - by intros -> ->.
  - intros i j x y.
    rewrite !list_lookup_fmap, !fmap_Some.
    intros (k & [-> _]%lookup_seqZ & ->) (k' & [-> _]%lookup_seqZ & ->).
    rewrite !Z.add_0_l. unfold Codegen.iterator_name.
    split; [by intros [= ->] | by intros ->].
Qed.

Lemma makeLoopIterators_collide_iff_witness :
  ((11:Z) = 1 → "i" = "i1" →
     [mk_isl_id 7%N "i0"; mk_isl_id 7%N "i1"; mk_isl_id 7%N "i2";
      mk_isl_id 7%N "i3"; mk_isl_id 7%N "i4"; mk_isl_id 7%N "i5";
      mk_isl_id 7%N "i6"; mk_isl_id 7%N "i7"; mk_isl_id 7%N "i8";
      mk_isl_id 7%N "i9"; mk_isl_id 7%N "i10"] = [mk_isl_id 7%N "i10"])
  ∧ (∀ (i j : nat) x y,
       [mk_isl_id 7%N "i0"; mk_isl_id 7%N "i1"; mk_isl_id 7%N "i2";
        mk_isl_id 7%N "i3"; mk_isl_id 7%N "i4"; mk_isl_id 7%N "i5";
        mk_isl_id 7%N "i6"; mk_isl_id 7%N "i7"; mk_isl_id 7%N "i8";
        mk_isl_id 7%N "i9"; mk_isl_id 7%N "i10"] !! i = Some x →
       [mk_isl_id 7%N "i10"] !! j = Some y →
       (x = y ↔ "i" +:+ pretty (Z.of_nat i) = "i1" +:+ pretty (Z.of_nat j))).
Proof.
  apply (makeLoopIterators_collide_iff 7%N 11 1 "i" "i1"); reflexivity.
Defined.

(** C9, as stated, fails: a negative count is not rejected. *)
Lemma makeLoopIterators_negative_returns :
  Codegen.makeLoopIterators 7%N (-1) "i" = Returned []
  ∧ ¬ fails_fatally (Codegen.makeLoopIterators 7%N (-1) "i").
Proof. split; [reflexivity|]. by intros [msg Hmsg]. Qed.

(** C9, amended: for a negative count the loop body never runs and
    [makeLoopIterators] returns the empty sequence. *)
Theorem makeLoopIterators_negative (ctx : isl_ctx) (n : Z) (prefix : string) :
  n < 0 → Codegen.makeLoopIterators ctx n prefix = Returned [].
Proof. intros Hn. rewrite makeLoopIterators_eq. by rewrite seqZ_nil by lia. Qed.

Lemma makeLoopIterators_negative_witness :
  Codegen.makeLoopIterators 7%N (-5) "i" = Returned [].
Proof. apply (makeLoopIterators_negative 7%N (-5) "i"). lia. Defined.

(** ** The relation algebra *)

Section relation_lemmas.
Context `{Countable A, Countable B, Countable C}.
Implicit Types (m : union_map A B).

Lemma elem_of_union_map_from (prefix : gmap A B) x c :
  (x, c) ∈ union_map_from prefix ↔ prefix !! x = Some c.
Proof.
  unfold union_map_from. rewrite elem_of_map_to_set. split.
  - by intros (x' & c' & Hx & [= -> ->]).
  - intros Hx. by exists x, c.
Qed.

Lemma elem_of_intersect_domain m (domain : gset A) x t :
  (x, t) ∈ intersect_domain m domain ↔ (x, t) ∈ m ∧ x ∈ domain.
Proof. unfold intersect_domain. rewrite elem_of_filter. simpl. tauto. Qed.

Lemma elem_of_apply_domain m (m2 : union_map A C) c t :
  (c, t) ∈ apply_domain m m2 ↔ ∃ x, (x, t) ∈ m ∧ (x, c) ∈ m2.
Proof.
  unfold apply_domain. rewrite elem_of_set_bind. split.
  - intros ([x t'] & Hm & Hq).
    apply elem_of_map in Hq as ([x' c'] & Heq & Hq).
    apply elem_of_filter in Hq as [Hx Hq]. simpl in *.
    injection Heq as -> ->. subst x'. by exists x.
  - intros (x & Hm & Hm2). exists (x, t). split; [done|].
    apply elem_of_map. exists (x, c). split; [done|].
    by apply elem_of_filter.
Qed.

Lemma is_single_valued_spec m :
  is_single_valued m = true ↔ ∀ x t1 t2, (x, t1) ∈ m → (x, t2) ∈ m → t1 = t2.
Proof.
  unfold is_single_valued. rewrite bool_decide_eq_true. split.
  - intros Hm x t1 t2 Ht1 Ht2. by apply (Hm _ Ht1 _ Ht2).
  - intros Hm [x t1] Ht1 [x' t2] Ht2 Hx. simpl in *. subst x'. by eapply Hm.
Qed.
End relation_lemmas.

(** C1: [isSingleReductionWithin] returns true exactly when the body
    reduction relation, restricted to the domain and read from the prefix
    coordinates, is single-valued: any two reduction targets reached from
    instances of the domain with the same prefix coordinate are equal. *)
Theorem isSingleReductionWithin_iff (domain : union_set)
    (prefix : multi_union_pw_aff) (scop : Scop) :
  Matcher.isSingleReductionWithin domain prefix scop = true ↔
  ∀ (c : list Z) (t1 t2 : point),
    (∃ x, x ∈ domain ∧ prefix !! x = Some c ∧ (x, t1) ∈ body_reductions scop) →
    (∃ x, x ∈ domain ∧ prefix !! x = Some c ∧ (x, t2) ∈ body_reductions scop) →
    t1 = t2.
Proof.
  unfold Matcher.isSingleReductionWithin. rewrite is_single_valued_spec.
  setoid_rewrite elem_of_apply_domain.
  setoid_rewrite elem_of_intersect_domain.
  setoid_rewrite elem_of_union_map_from.
  split.
  - intros Hsv c t1 t2 (x1 & ? & ? & ?) (x2 & ? & ? & ?).
    apply (Hsv c t1 t2); eauto.
  - intros Hsv c t1 t2 (x1 & [? ?] & ?) (x2 & [? ?] & ?).
    apply (Hsv c t1 t2); eauto.
Qed.

(** ** The supported-reduction test *)

Lemma isSupportedReduction_well_shaped (s : Stmt) :
  well_shaped s = true → returns (Matcher.isSupportedReduction s).
Proof.
  destruct s as [|ptr [[name [|v0 vs] pargs]| | |]]; try done.
  destruct v0 as [| | | | | | |f [|a0 cargs]]; try done;
    intros _; try (by eexists).
  unfold Matcher.isSupportedReduction; simpl.
  destruct (as_Add a0); by eexists.
Qed.

Lemma isSupportedReduction_ill_shaped (s : Stmt) :
  well_shaped s = false → Matcher.isSupportedReduction s = Undefined.
Proof.
  destruct s as [|ptr [[name [|v0 vs] pargs]| | |]]; try done.
  by destruct v0 as [| | | | | | |f [|a0 cargs]].
Qed.

Lemma isSupportedReduction_not_fatal (s : Stmt) :
  ¬ fails_fatally (Matcher.isSupportedReduction s).
Proof.
  intros [msg Hmsg]. destruct (well_shaped s) eqn:Hs.
  - destruct s as [|ptr [[name [|v0 vs] pargs]| | |]]; try done.
    destruct v0 as [| | | | | | |f [|a0 cargs]]; try done.
    unfold Matcher.isSupportedReduction in Hmsg; simpl in Hmsg.
    by destruct (as_Add a0).
  - by rewrite isSupportedReduction_ill_shaped in Hmsg.
Qed.

Lemma isSupportedReduction_true_iff (s : Stmt) :
  Matcher.isSupportedReduction s = Returned true ↔ addition_update s.
Proof.
  split.
  - destruct s as [|ptr [[name [|v0 vs] pargs]| | |]]; try done.
    destruct v0 as [| | | | | | |f [|a0 cargs]]; try done.
    destruct a0; try done. intros _. by repeat eexists.
  - by intros (ptr & name & f & a & b & cargs & rest & pargs & ->).
Qed.

(** ** The catalog lookup *)

Lemma same_as_true (a b : Stmt) : same_as a b = true ↔ get_ptr a = get_ptr b.
Proof. apply bool_decide_eq_true. Qed.

Lemma isReductionUpdateId_loop_true rs s d d' :
  Matcher.isReductionUpdateId_loop rs s d = (true, d') →
  ∃ iup, iup ∈ rs ∧ get_ptr (update iup) = get_ptr s ∧ d' = dims iup.
Proof.
  induction rs as [|iup rs IH]; simpl; [done|].
  destruct (same_as (update iup) s) eqn:Hsame.
  - intros [= <-]. exists iup. split; [left|]. by apply same_as_true in Hsame.
  - intros (iup' & ? & ?)%IH. exists iup'. split; [by right|done].
Qed.

Lemma isReductionUpdateId_loop_false rs s d :
  (∀ iup, iup ∈ rs → get_ptr (update iup) ≠ get_ptr s) →
  Matcher.isReductionUpdateId_loop rs s d = (false, d).
Proof.
  induction rs as [|iup rs IH]; simpl; [done|]. intros Hrs.
  destruct (same_as (update iup) s) eqn:Hsame.
  - apply same_as_true in Hsame. destruct (Hrs iup); [left|done].
  - apply IH. intros iup' ?. apply Hrs. by right.
Qed.

Lemma isReductionUpdateId_loop_found rs s d iup :
  iup ∈ rs → get_ptr (update iup) = get_ptr s →
  (Matcher.isReductionUpdateId_loop rs s d).1 = true.
Proof.
  induction rs as [|iup' rs IH]; simpl; [by intros ?%elem_of_nil|].
  intros Hin Hptr. destruct (same_as (update iup') s) eqn:Hsame; [done|].
  apply elem_of_cons in Hin as [->|Hin]; [|by apply IH].
  apply same_as_true in Hptr. congruence.
Qed.

(** ** [isReductionUpdateId] *)

Lemma isReductionUpdateId_unregistered id scop d :
  statements scop !! id = None →
  Matcher.isReductionUpdateId id scop d = Fatal (Matcher.not_a_statement id).
Proof.
  intros Hid. unfold Matcher.isReductionUpdateId, count. by rewrite Hid.
Qed.

Lemma isReductionUpdateId_registered id scop d s :
  statements scop !! id = Some s →
  Matcher.isReductionUpdateId id scop d
  = supported ← Matcher.isSupportedReduction s;
    if negb supported then mret (false, d)
    else mret (Matcher.isReductionUpdateId_loop (reductions scop) s d).
Proof.
  intros Hid. unfold Matcher.isReductionUpdateId, count, at_. by rewrite Hid.
Qed.

Lemma classify_unregistered scop id :
  statements scop !! id = None →
  classify scop id = Fatal (Matcher.not_a_statement id).
Proof.
  intros Hid. unfold classify. by rewrite isReductionUpdateId_unregistered.
Qed.

Lemma classify_ill_shaped scop id s :
  statements scop !! id = Some s → well_shaped s = false →
  classify scop id = Undefined.
Proof.
  intros Hid Hs. unfold classify.
  rewrite (isReductionUpdateId_registered _ _ _ s) by done.
  by rewrite isSupportedReduction_ill_shaped.
Qed.

Lemma classify_well_shaped scop id s :
  statements scop !! id = Some s → well_shaped s = true →
  returns (classify scop id).
Proof.
  intros Hid Hs. unfold classify.
  rewrite (isReductionUpdateId_registered _ _ _ s) by done.
  destruct (isSupportedReduction_well_shaped s Hs) as [[] ->]; by eexists.
Qed.

Lemma classify_true scop id :
  classify scop id = Returned true →
  ∃ s iup, statements scop !! id = Some s ∧ addition_update s
           ∧ iup ∈ reductions scop ∧ get_ptr (update iup) = get_ptr s.
Proof.
  unfold classify. destruct (statements scop !! id) as [s|] eqn:Hid.
  - rewrite (isReductionUpdateId_registered _ _ _ s) by done.
    destruct (Matcher.isSupportedReduction s) as [[]| |] eqn:Hsup; try done.
    simpl. destruct (Matcher.isReductionUpdateId_loop _ _ _) as [[] d'] eqn:Hloop;
      [|done].
    intros _. apply isReductionUpdateId_loop_true in Hloop as (iup & ? & ? & _).
    exists s, iup. by rewrite <- isSupportedReduction_true_iff.
  - by rewrite isReductionUpdateId_unregistered.
Qed.

Lemma classify_fatal scop id msg :
  classify scop id = Fatal msg →
  statements scop !! id = None ∧ msg = Matcher.not_a_statement id.
Proof.
  unfold classify. destruct (statements scop !! id) as [s|] eqn:Hid.
  - rewrite (isReductionUpdateId_registered _ _ _ s) by done.
    destruct (Matcher.isSupportedReduction s) as [[]|msg'|] eqn:Hsup; try done.
    destruct (isSupportedReduction_not_fatal s). by exists msg'.
  - rewrite isReductionUpdateId_unregistered by done. by intros [= <-].
Qed.

Lemma classify_undefined scop id :
  classify scop id = Undefined →
  ∃ s, statements scop !! id = Some s ∧ well_shaped s = false.
Proof.
  intros Hc. destruct (statements scop !! id) as [s|] eqn:Hid.
  - exists s. split; [done|]. destruct (well_shaped s) eqn:Hs; [|done].
    destruct (classify_well_shaped scop id s Hid Hs) as [b Hb]. congruence.
  - by rewrite classify_unregistered in Hc.
Qed.

(** ** The traversal of [reductionUpdates] *)

Lemma reductionUpdates_fn_classify scop set update :
  Matcher.reductionUpdates_fn scop set update
  = isUpdate ← classify scop (get_tuple_id set);
    mret (if isUpdate : bool then unite update set else update).
Proof.
  unfold Matcher.reductionUpdates_fn, classify.
  destruct (Matcher.isReductionUpdateId _ _ _) as [[[] d]| |]; done.
Qed.

Section traversal.
Context (scop : Scop).
Implicit Types (l : list isl_set) (u : union_set).

Local Abbreviation verdict s := (classify scop (get_tuple_id s)).

Lemma elem_of_selected l x :
  x ∈ selected scop l
  ↔ ∃ s, s ∈ l ∧ verdict s = Returned true ∧ x ∈ set_points s.
Proof.
  unfold selected. rewrite elem_of_union_list. split.
  - intros (X & (s & -> & [? ?]%list_elem_of_filter)%list_elem_of_fmap & ?).
    by exists s.
  - intros (s & ? & ? & ?). exists (set_points s). split; [|done].
    apply list_elem_of_fmap. exists s. split; [done|].
    by apply list_elem_of_filter.
Qed.

Lemma selected_cons s l :
  selected scop (s :: l)
  = (if bool_decide (verdict s = Returned true) then set_points s else ∅)
    ∪ selected scop l.
Proof.
  unfold selected. rewrite filter_cons.
  case_bool_decide; rewrite decide_bool_decide.
  - by rewrite bool_decide_eq_true_2.
  - rewrite bool_decide_eq_false_2 by done. by rewrite (left_id_L ∅ (∪)).
Qed.

Lemma foreach_returns l u :
  Forall (λ s, returns (verdict s)) l →
  foreach l (Matcher.reductionUpdates_fn scop) u = Returned (u ∪ selected scop l).
Proof.
  intros Hl. revert u. induction Hl as [|s l [b Hb] _ IH]; intros u; simpl.
  - unfold selected; simpl. by rewrite (right_id_L ∅ (∪)).
  - rewrite reductionUpdates_fn_classify. rewrite Hb. simpl.
    rewrite IH, selected_cons, Hb. unfold unite.
    destruct b; simpl; f_equal; set_solver.
Qed.

Lemma foreach_Returned_inv l u U :
  foreach l (Matcher.reductionUpdates_fn scop) u = Returned U →
  Forall (λ s, returns (verdict s)) l.
Proof.
  revert u. induction l as [|s l IH]; intros u; simpl; [by constructor|].
  rewrite reductionUpdates_fn_classify.
  destruct (verdict s) as [b| |] eqn:Hb; try done. simpl.
  intros ?%IH. constructor; [by exists b|done].
Qed.

Lemma foreach_undefined l u :
  Forall (λ s, ¬ fails_fatally (verdict s)) l →
  Exists (λ s, verdict s = Undefined) l →
  foreach l (Matcher.reductionUpdates_fn scop) u = Undefined.
Proof.
  intros Hl. revert u. induction Hl as [|s l Hs _ IH]; intros u Hex.
  - by apply Exists_nil in Hex.
  - simpl. rewrite reductionUpdates_fn_classify.
    destruct (verdict s) as [b|msg|] eqn:Hb; simpl; [|by destruct Hs; eexists|done].
    apply IH. apply Exists_cons in Hex as [Hex|Hex]; [congruence|done].
Qed.

Lemma foreach_fatal l u :
  Forall (λ s, verdict s ≠ Undefined) l →
  Exists (λ s, fails_fatally (verdict s)) l →
  ∃ s msg, s ∈ l ∧ verdict s = Fatal msg
           ∧ foreach l (Matcher.reductionUpdates_fn scop) u = Fatal msg.
Proof.
  intros Hl. revert u. induction Hl as [|s l Hs _ IH]; intros u Hex.
  - by apply Exists_nil in Hex.
  - simpl. rewrite reductionUpdates_fn_classify.
    destruct (verdict s) as [b|msg|] eqn:Hb; simpl; [| |done].
    + apply Exists_cons in Hex as [[msg Hmsg]|Hex]; [congruence|].
      destruct (IH (if b then unite u s else u) Hex) as (s' & msg & ? & ? & ?).
      exists s', msg. split; [by right|done].
    + exists s, msg. split; [left|done].
Qed.
End traversal.

(** ** The sets of a domain *)

Lemma elem_of_sets_of (domain : union_set) (s : isl_set) :
  s ∈ sets_of domain ↔ ∃ x, x ∈ domain ∧ s = extract_set domain (space_of x).
Proof.
  unfold sets_of, spaces. rewrite list_elem_of_fmap.
  setoid_rewrite elem_of_elements. setoid_rewrite elem_of_map. naive_solver.
Qed.

Lemma Forall_sets_of (domain : union_set) (l : list isl_set) (P : isl_id → Prop) :
  l ≡ₚ sets_of domain →
  Forall (λ s, P (get_tuple_id s)) l ↔ ∀ x, x ∈ domain → P x.1.
Proof.
  intros Hl. rewrite Forall_forall. setoid_rewrite Hl.
  setoid_rewrite elem_of_sets_of. split.
  - intros HP x Hx. apply (HP (extract_set domain (space_of x))). by exists x.
  - intros HP s (x & Hx & ->). by apply HP.
Qed.

Lemma Exists_sets_of (domain : union_set) (l : list isl_set) (P : isl_id → Prop) :
  l ≡ₚ sets_of domain →
  Exists (λ s, P (get_tuple_id s)) l ↔ ∃ x, x ∈ domain ∧ P x.1.
Proof.
  intros Hl. rewrite Exists_exists. setoid_rewrite Hl.
  setoid_rewrite elem_of_sets_of. split.
  - intros (s & (x & Hx & ->) & HP). by exists x.
  - intros (x & Hx & HP). exists (extract_set domain (space_of x)).
    split; [by exists x|done].
Qed.

Lemma selected_sets_of (scop : Scop) (domain : union_set) (l : list isl_set) :
  l ≡ₚ sets_of domain →
  selected scop l = filter (λ x, is_update scop x = true) domain.
Proof.
  intros Hl. apply set_eq. intros x.
  rewrite elem_of_selected, elem_of_filter. setoid_rewrite Hl.
  setoid_rewrite elem_of_sets_of. unfold is_update.
  rewrite bool_decide_eq_true. split.
  - intros (s & (y & Hy & ->) & Hv & Hx). simpl in Hx.
    apply elem_of_filter in Hx as [Hsp Hx]. split; [|done].
    unfold get_tuple_id in Hv; simpl in Hv.
    apply (f_equal fst) in Hsp; simpl in Hsp. by rewrite Hsp.
  - intros [Hv Hx]. exists (extract_set domain (space_of x)).
    split; [by exists x|]. split; [done|]. simpl. by apply elem_of_filter.
Qed.

(** ** [reductionUpdates], whatever the order of the traversal *)

Section any_order.
Context (scop : Scop) (domain : union_set) (l : list isl_set).
Hypothesis order : l ≡ₚ sets_of domain.

Lemma reductionUpdates_over_returns :
  (∀ x, x ∈ domain → returns (classify scop x.1)) →
  Matcher.reductionUpdates_over l scop
  = Returned (filter (λ x, is_update scop x = true) domain).
Proof.
  intros Hret. unfold Matcher.reductionUpdates_over.
  rewrite foreach_returns.
  - rewrite (selected_sets_of scop domain) by done.
    unfold union_set_empty. by rewrite (left_id_L ∅ (∪)).
  - by apply (Forall_sets_of domain l (λ id, returns (classify scop id))).
Qed.

Lemma reductionUpdates_over_Returned_inv U :
  Matcher.reductionUpdates_over l scop = Returned U →
  (∀ x, x ∈ domain → returns (classify scop x.1))
  ∧ U = filter (λ x, is_update scop x = true) domain.
Proof.
  intros HU.
  assert (∀ x, x ∈ domain → returns (classify scop x.1)) as Hret.
  { apply (Forall_sets_of domain l (λ id, returns (classify scop id))); [done|].
    by eapply foreach_Returned_inv. }
  split; [done|]. rewrite reductionUpdates_over_returns in HU by done.
  by injection HU.
Qed.

Lemma reductionUpdates_over_undefined :
  all_registered domain scop →
  (∃ x, x ∈ domain ∧ classify scop x.1 = Undefined) →
  Matcher.reductionUpdates_over l scop = Undefined.
Proof.
  intros Hreg Hex. apply foreach_undefined.
  - apply (Forall_sets_of domain l (λ id, ¬ fails_fatally (classify scop id)));
      [done|].
    intros x Hx [msg [Hnone _]%classify_fatal].
    destruct (Hreg x Hx) as [s Hs]. congruence.
  - by apply (Exists_sets_of domain l (λ id, classify scop id = Undefined)).
Qed.

Lemma reductionUpdates_over_fatal :
  (∀ x, x ∈ domain → classify scop x.1 ≠ Undefined) →
  (∃ x, x ∈ domain ∧ statements scop !! x.1 = None) →
  ∃ x, x ∈ domain ∧ statements scop !! x.1 = None
       ∧ Matcher.reductionUpdates_over l scop
         = Fatal (Matcher.not_a_statement x.1).
Proof.
  intros Hdef (x & Hx & Hnone).
  destruct (foreach_fatal scop l union_set_empty) as (s & msg & Hs & Hmsg & Hrun).
  - by apply (Forall_sets_of domain l (λ id, classify scop id ≠ Undefined)).
  - apply (Exists_sets_of domain l (λ id, fails_fatally (classify scop id)));
      [done|].
    exists x. split; [done|]. eexists. by apply classify_unregistered.
  - rewrite order in Hs. apply elem_of_sets_of in Hs as (y & Hy & ->).
    apply classify_fatal in Hmsg as [Hnone' ->].
    exists y. by repeat split.
Qed.

Lemma reductionUpdates_over_cases :
  all_registered domain scop →
  ((∀ x, x ∈ domain → returns (classify scop x.1))
   ∧ Matcher.reductionUpdates_over l scop
     = Returned (filter (λ x, is_update scop x = true) domain))
  ∨ ((∃ x, x ∈ domain ∧ classify scop x.1 = Undefined)
     ∧ Matcher.reductionUpdates_over l scop = Undefined).
Proof.
  intros Hreg.
  destruct (decide (set_Forall (λ x, classify scop x.1 ≠ Undefined) domain))
    as [Hdef|Hundef].
  - left. assert (∀ x, x ∈ domain → returns (classify scop x.1)) as Hret.
    { intros x Hx. specialize (Hdef x Hx). simpl in Hdef.
      destruct (classify scop x.1) as [b|msg|] eqn:Hc; [by exists b| |done].
      apply classify_fatal in Hc as [Hnone _].
      destruct (Hreg x Hx) as [s Hs]. congruence. }
    split; [done|]. by apply reductionUpdates_over_returns.
  - right. apply not_set_Forall_Exists in Hundef as (x & Hx & Hc); [|apply _].
    assert (classify scop x.1 = Undefined) as Hc'.
    { simpl in Hc. by destruct (decide (classify scop x.1 = Undefined)). }
    split; [by exists x|]. apply reductionUpdates_over_undefined; eauto.
Qed.
End any_order.

Lemma well_shaped_returns (scop : Scop) (domain : union_set) :
  all_registered domain scop → all_well_shaped domain scop →
  ∀ x, x ∈ domain → returns (classify scop x.1).
Proof.
  intros Hreg Hshape x Hx. destruct (Hreg x Hx) as [s Hs].
  eapply classify_well_shaped; [done|]. by eapply Hshape.
Qed.

Lemma returns_well_shaped (scop : Scop) (domain : union_set) :
  (∀ x, x ∈ domain → returns (classify scop x.1)) →
  all_registered domain scop ∧ all_well_shaped domain scop.
Proof.
  intros Hret. split.
  - intros x Hx. destruct (Hret x Hx) as [b Hb].
    destruct (statements scop !! x.1) eqn:Hs; [done|].
    rewrite classify_unregistered in Hb; done.
  - intros x s Hx Hs. destruct (Hret x Hx) as [b Hb].
    destruct (well_shaped s) eqn:Hshape; [done|].
    rewrite (classify_ill_shaped scop x.1 s) in Hb; done.
Qed.

Lemma sets_of_empty : sets_of ∅ = [].
Proof. unfold sets_of, spaces. by rewrite set_map_empty, elements_empty. Qed.

Lemma reductionUpdates_empty (scop : Scop) :
  Matcher.reductionUpdates ∅ scop = Returned ∅.
Proof. unfold Matcher.reductionUpdates. by rewrite sets_of_empty. Qed.

Lemma filter_subseteq_domain (scop : Scop) (domain : union_set) :
  filter (λ x, is_update scop x = true) domain ⊆ domain.
Proof. intros x. rewrite elem_of_filter. tauto. Qed.

(** C2: when every statement identifier of the domain is registered, a
    result of [reductionUpdates] is a subset of the domain, and the call
    never stops on the registry check; it does return such a subset when
    the registered statements have the shape the supported-reduction test
    relies on.  In particular the empty domain gives the empty domain. *)
Theorem reductionUpdates_subset (domain : union_set) (scop : Scop) :
  all_registered domain scop →
  (∀ U, Matcher.reductionUpdates domain scop = Returned U → U ⊆ domain)
  ∧ ¬ fails_fatally (Matcher.reductionUpdates domain scop)
  ∧ (all_well_shaped domain scop →
       ∃ U, Matcher.reductionUpdates domain scop = Returned U ∧ U ⊆ domain)
  ∧ (domain = ∅ → Matcher.reductionUpdates domain scop = Returned ∅).
Proof.
  intros Hreg.
  assert (domain = ∅ → Matcher.reductionUpdates domain scop = Returned ∅)
    as Hempty by (intros ->; apply reductionUpdates_empty).
  destruct (reductionUpdates_over_cases scop domain (sets_of domain)
              (reflexivity _) Hreg) as [[Hret HU]|[Hex HU]];
    fold (Matcher.reductionUpdates domain scop) in HU; rewrite HU in *.
  - repeat split.
    + intros U [= <-]. apply filter_subseteq_domain.
    + by intros [msg Hmsg].
    + intros _. eexists. split; [done|]. apply filter_subseteq_domain.
    + done.
  - repeat split; try done.
    + by intros [msg Hmsg].
    + intros Hshape. destruct Hex as (x & Hx & Hc).
      destruct (well_shaped_returns scop domain Hreg Hshape x Hx) as [b Hb].
      congruence.
Qed.

(** C3: a statement that is not an assignment of a call whose first
    argument is an addition is never classified as a reduction update,
    whatever the catalog holds, and its instances are never in the result
    of [reductionUpdates]; every instance in the result belongs to a
    statement of that shape. *)
Theorem reductionUpdates_addition_only (scop : Scop) :
  (∀ s, Matcher.isSupportedReduction s = Returned true ↔ addition_update s)
  ∧ (∀ id s d, statements scop !! id = Some s → well_shaped s = true →
       ¬ addition_update s →
       Matcher.isReductionUpdateId id scop d = Returned (false, d))
  ∧ (∀ id d ds, Matcher.isReductionUpdateId id scop d = Returned (true, ds) →
       ∃ s, statements scop !! id = Some s ∧ addition_update s)
  ∧ (∀ domain U x, Matcher.reductionUpdates domain scop = Returned U → x ∈ U →
       ∃ s, statements scop !! x.1 = Some s ∧ addition_update s)
  ∧ (∀ domain U x s, Matcher.reductionUpdates domain scop = Returned U →
       statements scop !! x.1 = Some s → ¬ addition_update s → x ∉ U).
Proof.
  assert (∀ domain U x, Matcher.reductionUpdates domain scop = Returned U →
            x ∈ U → ∃ s, statements scop !! x.1 = Some s ∧ addition_update s)
    as Hresult.
  { intros domain U x HU Hx.
    apply (reductionUpdates_over_Returned_inv scop domain) in HU as [_ ->];
      [|done].
    apply elem_of_filter in Hx as [Hupd _]. unfold is_update in Hupd.
    apply bool_decide_eq_true in Hupd.
    apply classify_true in Hupd as (s & _ & ? & ? & _). by exists s. }
  split; [apply isSupportedReduction_true_iff|]. repeat split.
  - intros id s d Hid Hshape Hadd.
    rewrite (isReductionUpdateId_registered _ _ _ s) by done.
    destruct (isSupportedReduction_well_shaped s Hshape) as [[] Hb];
      rewrite Hb; [|done].
    by apply isSupportedReduction_true_iff in Hb.
  - intros id d ds Hid.
    destruct (statements scop !! id) as [s|] eqn:Hs.
    + exists s. split; [done|]. apply isSupportedReduction_true_iff.
      rewrite (isReductionUpdateId_registered _ _ _ s) in Hid by done.
      by destruct (Matcher.isSupportedReduction s) as [[]| |].
    + by rewrite isReductionUpdateId_unregistered in Hid.
  - done.
  - intros domain U x s HU Hs Hadd Hx.
    destruct (Hresult domain U x HU Hx) as (s' & Hs' & Hadd'). congruence.
Qed.

(** C4: the catalog is searched by identity.  A statement none of whose
    catalog entries has its address is not a reduction update, even when
    an entry holds a structurally equal node; a statement classified as
    an update, and every instance in the result of [reductionUpdates],
    has a catalog entry with the address of the registered statement;
    and an addition statement with such an entry is classified as an
    update. *)
Theorem reductionUpdates_by_identity (scop : Scop) :
  (∀ a b, get_node a = get_node b → get_ptr a ≠ get_ptr b → same_as a b = false)
  ∧ (∀ id s d, statements scop !! id = Some s → well_shaped s = true →
       (∀ iup, iup ∈ reductions scop → get_ptr (update iup) ≠ get_ptr s) →
       Matcher.isReductionUpdateId id scop d = Returned (false, d))
  ∧ (∀ id d ds, Matcher.isReductionUpdateId id scop d = Returned (true, ds) →
       ∃ s iup, statements scop !! id = Some s ∧ iup ∈ reductions scop
                ∧ get_ptr (update iup) = get_ptr s ∧ ds = dims iup)
  ∧ (∀ domain U x, Matcher.reductionUpdates domain scop = Returned U → x ∈ U →
       ∃ s iup, statements scop !! x.1 = Some s ∧ iup ∈ reductions scop
                ∧ get_ptr (update iup) = get_ptr s)
  ∧ (∀ id s d iup, statements scop !! id = Some s → addition_update s →
       iup ∈ reductions scop → get_ptr (update iup) = get_ptr s →
       ∃ ds, Matcher.isReductionUpdateId id scop d = Returned (true, ds)).
Proof.
  repeat split.
  - intros a b _ Hptr. by apply bool_decide_eq_false.
  - intros id s d Hid Hshape Hcat.
    rewrite (isReductionUpdateId_registered _ _ _ s) by done.
    destruct (isSupportedReduction_well_shaped s Hshape) as [[] ->]; [|done].
    simpl. by rewrite isReductionUpdateId_loop_false.
  - intros id d ds Hid.
    destruct (statements scop !! id) as [s|] eqn:Hs.
    + rewrite (isReductionUpdateId_registered _ _ _ s) in Hid by done.
      destruct (Matcher.isSupportedReduction s) as [[]| |]; try done.
      simpl in Hid. injection Hid as Hloop.
      apply isReductionUpdateId_loop_true in Hloop as (iup & ? & ? & ?).
      by exists s, iup.
    + by rewrite isReductionUpdateId_unregistered in Hid.
  - intros domain U x HU Hx.
    apply (reductionUpdates_over_Returned_inv scop domain) in HU as [_ ->];
      [|done].
    apply elem_of_filter in Hx as [Hupd _]. unfold is_update in Hupd.
    apply bool_decide_eq_true in Hupd.
    apply classify_true in Hupd as (s & iup & ? & _ & ? & ?). by exists s, iup.
  - intros id s d iup Hid Hadd Hiup Hptr.
    rewrite (isReductionUpdateId_registered _ _ _ s) by done.
    apply isSupportedReduction_true_iff in Hadd as ->. simpl.
    pose proof (isReductionUpdateId_loop_found _ s d iup Hiup Hptr) as Hfound.
    destruct (Matcher.isReductionUpdateId_loop _ _ _) as [b ds].
    simpl in Hfound. subst b. by exists ds.
Qed.

(** C5, amended: when the registered statements of the domain have the
    shape the supported-reduction test relies on, [reductionUpdates]
    stops with the diagnostic naming an unregistered identifier of the
    domain if there is one, and returns otherwise, whatever the order in
    which the sets are visited. *)
Theorem reductionUpdates_failure_modes (domain : union_set) (scop : Scop)
    (l : list isl_set) :
  l ≡ₚ sets_of domain →
  all_well_shaped domain scop →
  ((∃ x, x ∈ domain ∧ statements scop !! x.1 = None) →
     ∃ x, x ∈ domain ∧ statements scop !! x.1 = None
          ∧ Matcher.reductionUpdates_over l scop
            = Fatal ("id is not a statement in scop" +:+ id_name x.1))
  ∧ (all_registered domain scop → returns (Matcher.reductionUpdates_over l scop)).
Proof.
  intros Hl Hshape. split.
  - intros Hex. apply (reductionUpdates_over_fatal scop domain l Hl); [|done].
    intros x Hx (s & Hs & Hill)%classify_undefined.
    rewrite (Hshape x s Hx Hs) in Hill. done.
  - intros Hreg. eexists.
    apply (reductionUpdates_over_returns scop domain l Hl).
    by apply well_shaped_returns.
Qed.

Lemma unite_outcomes_Undefined_r (m : outcome union_set) :
  ¬ fails_fatally m → unite_outcomes m Undefined = Undefined.
Proof. destruct m as [u|msg|]; [done| |done]. intros []. by exists msg. Qed.

(** The union property without the disjointness assumption. *)
Lemma reductionUpdates_union_any (D1 D2 : union_set) (scop : Scop) :
  all_registered D1 scop → all_registered D2 scop →
  Matcher.reductionUpdates (D1 ∪ D2) scop
  = unite_outcomes (Matcher.reductionUpdates D1 scop)
                   (Matcher.reductionUpdates D2 scop).
Proof.
  intros Hreg1 Hreg2.
  assert (all_registered (D1 ∪ D2) scop) as Hreg.
  { intros x [?|?]%elem_of_union; eauto. }
  unfold Matcher.reductionUpdates.
  destruct (reductionUpdates_over_cases scop (D1 ∪ D2) (sets_of (D1 ∪ D2))
              (reflexivity _) Hreg) as [[Hret ->]|[(x & Hx & Hc) ->]].
  - rewrite (reductionUpdates_over_returns scop D1 (sets_of D1) (reflexivity _))
      by (intros x Hx; apply Hret; set_solver).
    rewrite (reductionUpdates_over_returns scop D2 (sets_of D2) (reflexivity _))
      by (intros x Hx; apply Hret; set_solver).
    unfold unite_outcomes; simpl. rewrite filter_union_L; [reflexivity|apply _].
  - apply elem_of_union in Hx as [Hx|Hx].
    + rewrite (reductionUpdates_over_undefined scop D1 (sets_of D1)
                 (reflexivity _) Hreg1) by eauto.
      done.
    + rewrite (reductionUpdates_over_undefined scop D2 (sets_of D2)
                 (reflexivity _) Hreg2) by eauto.
      symmetry. apply unite_outcomes_Undefined_r.
      destruct (reductionUpdates_over_cases scop D1 (sets_of D1)
                  (reflexivity _) Hreg1) as [[_ ->]|[_ ->]]; by intros [msg ?].
Qed.

Lemma reductionUpdates_any_order (domain : union_set) (scop : Scop)
    (l : list isl_set) :
  all_registered domain scop → l ≡ₚ sets_of domain →
  Matcher.reductionUpdates_over l scop = Matcher.reductionUpdates domain scop.
Proof.
  intros Hreg Hl. unfold Matcher.reductionUpdates.
  destruct (reductionUpdates_over_cases scop domain (sets_of domain)
              (reflexivity _) Hreg) as [[Hret ->]|[Hex ->]].
  - apply (reductionUpdates_over_returns scop domain l Hl Hret).
  - apply (reductionUpdates_over_undefined scop domain l Hl Hreg Hex).
Qed.

(** C6: for disjoint domains whose statement identifiers are registered,
    the result on the union is the union of the results, and for every
    registered domain the outcome is the same in whatever order the sets
    of the domain are visited. *)
Theorem reductionUpdates_union (D1 D2 : union_set) (scop : Scop) :
  D1 ## D2 → all_registered D1 scop → all_registered D2 scop →
  Matcher.reductionUpdates (D1 ∪ D2) scop
  = unite_outcomes (Matcher.reductionUpdates D1 scop)
                   (Matcher.reductionUpdates D2 scop)
  ∧ (∀ U1 U2, Matcher.reductionUpdates D1 scop = Returned U1 →
              Matcher.reductionUpdates D2 scop = Returned U2 →
              Matcher.reductionUpdates (D1 ∪ D2) scop = Returned (U1 ∪ U2))
  ∧ (∀ l, l ≡ₚ sets_of (D1 ∪ D2) →
          Matcher.reductionUpdates_over l scop
          = Matcher.reductionUpdates (D1 ∪ D2) scop).
Proof.
  intros _ Hreg1 Hreg2.
  pose proof (reductionUpdates_union_any D1 D2 scop Hreg1 Hreg2) as Hunion.
  split; [done|]. split.
  - intros U1 U2 HU1 HU2. by rewrite Hunion, HU1, HU2.
  - intros l Hl. apply reductionUpdates_any_order; [|done].
    intros x [?|?]%elem_of_union; eauto.
Qed.

(** C10: the supported-reduction test returns exactly on statements that
    are [Provide] nodes with at least one value whose first value, when a
    call, has at least one argument, and is undefined on all others;
    accordingly, on a domain whose identifiers are registered,
    [reductionUpdates] returns exactly when every registered statement
    reached has that shape, and is undefined otherwise. *)
Theorem isSupportedReduction_defined_iff (domain : union_set) (scop : Scop) :
  all_registered domain scop →
  (∀ s, returns (Matcher.isSupportedReduction s) ↔ well_shaped s = true)
  ∧ (∀ s, Matcher.isSupportedReduction s = Undefined ↔ well_shaped s = false)
  ∧ (returns (Matcher.reductionUpdates domain scop)
     ↔ all_well_shaped domain scop)
  ∧ (¬ all_well_shaped domain scop →
     Matcher.reductionUpdates domain scop = Undefined).
Proof.
  intros Hreg.
  assert (∀ s, returns (Matcher.isSupportedReduction s) ↔ well_shaped s = true)
    as Hiff.
  { intros s. split; [|apply isSupportedReduction_well_shaped].
    intros [b Hb]. destruct (well_shaped s) eqn:Hs; [done|].
    by rewrite isSupportedReduction_ill_shaped in Hb. }
  split; [done|]. split.
  { intros s. split; [|apply isSupportedReduction_ill_shaped].
    intros Hs. destruct (well_shaped s) eqn:Hshape; [|done].
    apply Hiff in Hshape as [b Hb]. congruence. }
  unfold Matcher.reductionUpdates.
  destruct (reductionUpdates_over_cases scop domain (sets_of domain)
              (reflexivity _) Hreg) as [[Hret ->]|[(x & Hx & Hc) ->]].
  - apply returns_well_shaped in Hret as [_ Hshape]. split; [|done].
    split; [done|]. intros _. by eexists.
  - assert (¬ all_well_shaped domain scop) as Hill.
    { intros Hshape. apply classify_undefined in Hc as (s & Hs & Hs').
      rewrite (Hshape x s Hx Hs) in Hs'. done. }
    split; [|done]. split; [by intros [U HU]|done].
Qed.

(** ** The properties on the small Scop *)

Ltac in_literal_set H :=
  unfold ex_domain, ex_sums, ex_others, ex_unshaped, ex_unregistered,
    ex_corrupted in H;
  set_unfold in H; destruct_or!; subst.

Lemma ex_domain_registered : all_registered ex_domain ex_scop.
Proof. intros x Hx. in_literal_set Hx; vm_compute; by eexists. Qed.

Lemma ex_sums_registered : all_registered ex_sums ex_scop.
Proof. intros x Hx. in_literal_set Hx; vm_compute; by eexists. Qed.

Lemma ex_others_registered : all_registered ex_others ex_scop.
Proof. intros x Hx. in_literal_set Hx; vm_compute; by eexists. Qed.

Lemma ex_unshaped_registered : all_registered ex_unshaped ex_scop.
Proof. intros x Hx. in_literal_set Hx; vm_compute; by eexists. Qed.

Lemma ex_domain_well_shaped : all_well_shaped ex_domain ex_scop.
Proof. intros x s Hx. in_literal_set Hx; vm_compute; by intros [= <-]. Qed.

Lemma ex_unregistered_well_shaped : all_well_shaped ex_unregistered ex_scop.
Proof. intros x s Hx. in_literal_set Hx; vm_compute; by intros [= <-]. Qed.

Lemma ex_mul_not_addition : ¬ addition_update ex_mul.
Proof. by intros (ptr & name & f & a & b & cargs & rest & pargs & [=]). Qed.

Lemma ex_domain_result :
  Matcher.reductionUpdates ex_domain ex_scop
  = Returned (filter (λ x, is_update ex_scop x = true) ex_domain).
Proof.
  apply (reductionUpdates_over_returns ex_scop ex_domain); [done|].
  apply well_shaped_returns;
    [apply ex_domain_registered | apply ex_domain_well_shaped].
Qed.

Example reductionUpdates_ex_domain :
  elements <$> Matcher.reductionUpdates ex_domain ex_scop
  = Returned [(ex_S0, [0; 0]); (ex_S0, [1; 0]); (ex_S0, [0; 1])].
Proof. vm_compute. reflexivity. Qed.

Example isReductionUpdateId_ex :
  Matcher.isReductionUpdateId ex_S0 ex_scop [] = Returned (true, [1%nat])
  ∧ Matcher.isReductionUpdateId ex_S1 ex_scop [] = Returned (false, [])
  ∧ Matcher.isReductionUpdateId ex_S2 ex_scop [] = Returned (false, [])
  ∧ Matcher.isReductionUpdateId ex_S3 ex_scop [] = Returned (false, [])
  ∧ Matcher.isReductionUpdateId ex_S4 ex_scop [] = Undefined
  ∧ Matcher.isReductionUpdateId ex_T ex_scop []
    = Fatal "id is not a statement in scopT".
Proof. vm_compute. by repeat split. Qed.

(** The positive and the negative case of the single-reduction test: the
    sums of [S0] are one reduction per value of [i]; they are two under
    the root prefix, and so are the instances of [S0] and [S1] that share
    a value of [i]. *)
Example isSingleReductionWithin_ex :
  Matcher.isSingleReductionWithin ex_sums ex_prefix_i ex_scop = true
  ∧ Matcher.isSingleReductionWithin ex_sums ex_prefix_root ex_scop = false
  ∧ Matcher.isSingleReductionWithin ex_domain ex_prefix_i ex_scop = false.
Proof. vm_compute. by repeat split. Qed.

Lemma reductionUpdates_subset_witness :
  (∀ U, Matcher.reductionUpdates ex_domain ex_scop = Returned U → U ⊆ ex_domain)
  ∧ ¬ fails_fatally (Matcher.reductionUpdates ex_domain ex_scop)
  ∧ (all_well_shaped ex_domain ex_scop →
       ∃ U, Matcher.reductionUpdates ex_domain ex_scop = Returned U
            ∧ U ⊆ ex_domain)
  ∧ (ex_domain = ∅ → Matcher.reductionUpdates ex_domain ex_scop = Returned ∅).
Proof.
  apply (reductionUpdates_subset ex_domain ex_scop). apply ex_domain_registered.
Defined.

Lemma reductionUpdates_addition_only_witness :
  Matcher.isReductionUpdateId ex_S1 ex_scop [] = Returned (false, [])
  ∧ (ex_S1, [0; 0]) ∉ filter (λ x, is_update ex_scop x = true) ex_domain.
Proof.
  destruct (reductionUpdates_addition_only ex_scop)
    as (_ & Hclassify & _ & _ & Hresult).
  split.
  - apply (Hclassify ex_S1 ex_mul); [reflexivity..|apply ex_mul_not_addition].
  - apply (Hresult ex_domain _ (ex_S1, [0; 0]) ex_mul);
      [apply ex_domain_result|reflexivity|apply ex_mul_not_addition].
Defined.

Lemma reductionUpdates_by_identity_witness :
  get_node ex_add_copy = get_node ex_add
  ∧ same_as ex_add_copy ex_add = false
  ∧ Matcher.isReductionUpdateId ex_S2 ex_scop [] = Returned (false, []).
Proof.
  destruct (reductionUpdates_by_identity ex_scop) as (Hsame & Hclassify & _).
  split; [reflexivity|]. split.
  - apply Hsame; [reflexivity|]. by intros [=].
  - apply (Hclassify ex_S2 ex_add_copy); [reflexivity..|].
    intros iup Hiup. simpl in Hiup. set_unfold in Hiup.
    destruct_or!; subst iup; simpl; by intros [=].
Defined.

(** C5, as stated, fails: with every identifier registered the call need
    not return; and a domain that holds an unregistered identifier need
    not stop on the registry check that names it: when the set of [S4] is
    visited before that of [Z], the call is undefined before [Z] is
    looked up. *)
Lemma reductionUpdates_registered_not_total :
  (all_registered ex_unshaped ex_scop
   ∧ Matcher.reductionUpdates ex_unshaped ex_scop = Undefined
   ∧ ¬ returns (Matcher.reductionUpdates ex_unshaped ex_scop))
  ∧ ((ex_Z, [0]) ∈ ex_crash
     ∧ statements ex_scop !! ex_Z = None
     ∧ ∃ k, sets_of ex_crash ≡ₚ extract_set ex_crash (ex_S4, 1%nat) :: k
          ∧ Matcher.reductionUpdates_over
              (extract_set ex_crash (ex_S4, 1%nat) :: k) ex_scop = Undefined
          ∧ ¬ fails_fatally
                (Matcher.reductionUpdates_over
                   (extract_set ex_crash (ex_S4, 1%nat) :: k) ex_scop)).
Proof.
  assert (Matcher.reductionUpdates ex_unshaped ex_scop = Undefined) as Hrun
    by (vm_compute; reflexivity).
  rewrite Hrun. split; [split; [|split]|split; [|split]].
  - apply ex_unshaped_registered.
  - reflexivity.
  - by intros [U HU].
  - unfold ex_crash. apply elem_of_union. right. by apply elem_of_singleton.
  - reflexivity.
  - assert (extract_set ex_crash (space_of (ex_S4, [0])) ∈ sets_of ex_crash)
      as Hin.
    { apply elem_of_sets_of. exists (ex_S4, [0]). split; [|done].
      unfold ex_crash. apply elem_of_union. left. by apply elem_of_singleton. }
    apply elem_of_Permutation in Hin as [k Hk]. exists k.
    assert (Matcher.reductionUpdates_over
              (extract_set ex_crash (ex_S4, 1%nat) :: k) ex_scop = Undefined)
      as Hfirst.
    { unfold Matcher.reductionUpdates_over. simpl.
      rewrite reductionUpdates_fn_classify. unfold get_tuple_id. simpl.
      by rewrite (classify_ill_shaped ex_scop ex_S4 ex_evaluate). }
    rewrite Hfirst. split; [exact Hk|]. split; [done|]. by intros [msg Hmsg].
Qed.

Lemma reductionUpdates_failure_modes_witness :
  ((∃ x, x ∈ ex_unregistered ∧ statements ex_scop !! x.1 = None) →
     ∃ x, x ∈ ex_unregistered ∧ statements ex_scop !! x.1 = None
          ∧ Matcher.reductionUpdates_over (sets_of ex_unregistered) ex_scop
            = Fatal ("id is not a statement in scop" +:+ id_name x.1))
  ∧ (all_registered ex_unregistered ex_scop →
     returns (Matcher.reductionUpdates_over (sets_of ex_unregistered) ex_scop)).
Proof.
  apply (reductionUpdates_failure_modes ex_unregistered ex_scop
           (sets_of ex_unregistered)).
  - reflexivity.
  - apply ex_unregistered_well_shaped.
Defined.

Lemma reductionUpdates_union_witness :
  Matcher.reductionUpdates (ex_sums ∪ ex_others) ex_scop
  = unite_outcomes (Matcher.reductionUpdates ex_sums ex_scop)
                   (Matcher.reductionUpdates ex_others ex_scop)
  ∧ (∀ U1 U2, Matcher.reductionUpdates ex_sums ex_scop = Returned U1 →
              Matcher.reductionUpdates ex_others ex_scop = Returned U2 →
              Matcher.reductionUpdates (ex_sums ∪ ex_others) ex_scop
              = Returned (U1 ∪ U2))
  ∧ (∀ l, l ≡ₚ sets_of (ex_sums ∪ ex_others) →
          Matcher.reductionUpdates_over l ex_scop
          = Matcher.reductionUpdates (ex_sums ∪ ex_others) ex_scop).
Proof.
  apply (reductionUpdates_union ex_sums ex_others ex_scop).
  - unfold ex_sums, ex_others. set_solver.
  - apply ex_sums_registered.
  - apply ex_others_registered.
Defined.

Lemma isSupportedReduction_defined_iff_witness :
  (∀ s, returns (Matcher.isSupportedReduction s) ↔ well_shaped s = true)
  ∧ (∀ s, Matcher.isSupportedReduction s = Undefined ↔ well_shaped s = false)
  ∧ (returns (Matcher.reductionUpdates ex_unshaped ex_scop)
     ↔ all_well_shaped ex_unshaped ex_scop)
  ∧ (¬ all_well_shaped ex_unshaped ex_scop →
     Matcher.reductionUpdates ex_unshaped ex_scop = Undefined).
Proof.
  apply (isSupportedReduction_defined_iff ex_unshaped ex_scop).
  apply ex_unshaped_registered.
Defined.


(** ** Further properties of the catalog lookup *)

Lemma isReductionUpdateId_loop_first pre iup post s d :
  (∀ r, r ∈ pre → get_ptr (update r) ≠ get_ptr s) →
  get_ptr (update iup) = get_ptr s →
  Matcher.isReductionUpdateId_loop (pre ++ iup :: post) s d = (true, dims iup).
Proof.
  intros Hpre Hptr. induction pre as [|r pre IH]; simpl.
  - apply same_as_true in Hptr. by rewrite Hptr.
  - destruct (same_as (update r) s) eqn:Hsame.
    + apply same_as_true in Hsame. destruct (Hpre r); [left|done].
    + apply IH. intros r' Hr'. apply Hpre. by right.
Qed.

Lemma isReductionUpdateId_loop_dims rs s d :
  (∀ d', (Matcher.isReductionUpdateId_loop rs s d').1
         = (Matcher.isReductionUpdateId_loop rs s d).1)
  ∧ ((Matcher.isReductionUpdateId_loop rs s d).1 = false →
     (Matcher.isReductionUpdateId_loop rs s d).2 = d)
  ∧ ((Matcher.isReductionUpdateId_loop rs s d).1 = true →
     ∀ d', Matcher.isReductionUpdateId_loop rs s d'
           = Matcher.isReductionUpdateId_loop rs s d).
Proof.
  induction rs as [|r rs (IH1 & IH2 & IH3)]; simpl; [done|].
  destruct (same_as (update r) s); [done|]. by repeat split.
Qed.

(** X1: the reduction dimensions returned for an update statement are
    those of the first catalog entry that holds its node, whatever later
    entries hold. *)
Theorem isReductionUpdateId_first_entry (scop : Scop) (id : isl_id) (s : Stmt)
    (pre post : list Reduction) (iup : Reduction) (d : list nat) :
  statements scop !! id = Some s →
  addition_update s →
  reductions scop = pre ++ iup :: post →
  (∀ r, r ∈ pre → get_ptr (update r) ≠ get_ptr s) →
  get_ptr (update iup) = get_ptr s →
  Matcher.isReductionUpdateId id scop d = Returned (true, dims iup).
Proof.
  intros Hid Hadd Hcat Hpre Hptr.
  rewrite (isReductionUpdateId_registered _ _ _ s) by done.
  apply isSupportedReduction_true_iff in Hadd as ->. simpl.
  by rewrite Hcat, isReductionUpdateId_loop_first.
Qed.

Lemma isReductionUpdateId_first_entry_witness :
  Matcher.isReductionUpdateId ex_S0 ex_scop_twice [7%nat]
  = Returned (true, [1%nat]).
Proof.
  apply (isReductionUpdateId_first_entry ex_scop_twice ex_S0 ex_add
           [mk_Reduction ex_mul [0%nat]] [mk_Reduction ex_add [2%nat]]
           (mk_Reduction ex_add [1%nat]) [7%nat]).
  - reflexivity.
  - by repeat eexists.
  - reflexivity.
  - intros r Hr. apply list_elem_of_singleton in Hr as ->. by intros [=].
  - reflexivity.
Defined.

Lemma isReductionUpdateId_false_dims (scop : Scop) (id : isl_id)
    (d ds : list nat) :
  Matcher.isReductionUpdateId id scop d = Returned (false, ds) → ds = d.
Proof.
  destruct (statements scop !! id) as [s|] eqn:Hid.
  - rewrite (isReductionUpdateId_registered _ _ _ s) by done.
    destruct (Matcher.isSupportedReduction s) as [[]| |]; simpl; try done;
      [|by intros [= <-]].
    destruct (isReductionUpdateId_loop_dims (reductions scop) s d)
      as (_ & Hfalse & _).
    destruct (Matcher.isReductionUpdateId_loop (reductions scop) s d)
      as [b0 ds0]. simpl in *. intros [= -> ->]. by apply Hfalse.
  - by rewrite isReductionUpdateId_unregistered.
Qed.

(** X2: the vector passed in as [reductionDims] has no influence on the
    verdict; a negative verdict leaves it as it was passed in, and a
    positive verdict returns the same dimensions whatever was passed
    in. *)
Theorem isReductionUpdateId_reductionDims (scop : Scop) (id : isl_id)
    (d d' : list nat) (b : bool) (ds : list nat) :
  Matcher.isReductionUpdateId id scop d = Returned (b, ds) →
  (b = false → ds = d)
  ∧ Matcher.isReductionUpdateId id scop d'
    = Returned (b, if b then ds else d').
Proof.
  destruct (statements scop !! id) as [s|] eqn:Hid.
  - rewrite !(isReductionUpdateId_registered _ _ _ s) by done.
    destruct (Matcher.isSupportedReduction s) as [[]| |]; simpl; try done.
    + destruct (isReductionUpdateId_loop_dims (reductions scop) s d)
        as (Hverdict & Hfalse & Htrue).
      specialize (Hverdict d').
      destruct (Matcher.isReductionUpdateId_loop (reductions scop) s d)
        as [b0 ds0] eqn:Hloop.
      simpl in *. intros [= -> ->]. split; [done|].
      destruct b.
      * by rewrite (Htrue eq_refl d').
      * destruct (isReductionUpdateId_loop_dims (reductions scop) s d')
          as (_ & Hfalse' & _).
        destruct (Matcher.isReductionUpdateId_loop (reductions scop) s d')
          as [b1 ds1]. simpl in *. subst b1. by rewrite Hfalse'.
    + by intros [= <- <-].
  - by rewrite isReductionUpdateId_unregistered.
Qed.

Lemma isReductionUpdateId_reductionDims_witness :
  (false = false → @nil nat = [])
  ∧ Matcher.isReductionUpdateId ex_S1 ex_scop [4%nat; 2%nat]
    = Returned (false, [4%nat; 2%nat]).
Proof.
  apply (isReductionUpdateId_reductionDims ex_scop ex_S1 [] [4%nat; 2%nat]
           false []).
  reflexivity.
Defined.

(** ** Further properties of [reductionUpdates] *)

Lemma reductionUpdates_Returned_iff (domain U : union_set) (scop : Scop) :
  Matcher.reductionUpdates domain scop = Returned U
  ↔ (∀ x, x ∈ domain → returns (classify scop x.1))
    ∧ U = filter (λ x, is_update scop x = true) domain.
Proof.
  split.
  - by apply (reductionUpdates_over_Returned_inv scop domain).
  - intros [Hret ->].
    by apply (reductionUpdates_over_returns scop domain).
Qed.

Lemma is_update_true (scop : Scop) (x : point) :
  is_update scop x = true ↔ classify scop x.1 = Returned true.
Proof. apply bool_decide_eq_true. Qed.

Lemma classify_isReductionUpdateId (scop : Scop) (id : isl_id) (b : bool) :
  classify scop id = Returned b
  ↔ ∃ ds, Matcher.isReductionUpdateId id scop [] = Returned (b, ds).
Proof.
  unfold classify. split.
  - destruct (Matcher.isReductionUpdateId id scop []) as [[b' ds]| |];
      try done.
    intros [= <-]. by exists ds.
  - by intros [ds ->].
Qed.

(** X3: [reductionUpdates] is idempotent: applied to its own result it
    returns that result. *)
Theorem reductionUpdates_idempotent (domain U : union_set) (scop : Scop) :
  Matcher.reductionUpdates domain scop = Returned U →
  Matcher.reductionUpdates U scop = Returned U.
Proof.
  intros [Hret ->]%reductionUpdates_Returned_iff.
  apply reductionUpdates_Returned_iff. split.
  - intros x [_ Hx]%elem_of_filter. by apply Hret.
  - apply set_eq. intros x. rewrite !elem_of_filter. tauto.
Qed.

Lemma reductionUpdates_idempotent_witness :
  Matcher.reductionUpdates
    (filter (λ x, is_update ex_scop x = true) ex_domain) ex_scop
  = Returned (filter (λ x, is_update ex_scop x = true) ex_domain).
Proof.
  apply (reductionUpdates_idempotent ex_domain _ ex_scop).
  apply ex_domain_result.
Defined.

(** X4: on a part of a domain on which it returns, [reductionUpdates]
    returns the part of the result that lies in it; so the result grows
    with the domain. *)
Theorem reductionUpdates_restrict (domain domain' U : union_set) (scop : Scop) :
  domain' ⊆ domain →
  Matcher.reductionUpdates domain scop = Returned U →
  Matcher.reductionUpdates domain' scop = Returned (U ∩ domain')
  ∧ U ∩ domain' ⊆ U.
Proof.
  intros Hsub [Hret ->]%reductionUpdates_Returned_iff.
  split; [|apply intersection_subseteq_l].
  apply reductionUpdates_Returned_iff. split.
  - intros x Hx. by apply Hret, Hsub.
  - apply set_eq. intros x.
    rewrite elem_of_intersection, !elem_of_filter.
    specialize (Hsub x). tauto.
Qed.

Lemma reductionUpdates_restrict_witness :
  Matcher.reductionUpdates ex_others ex_scop
  = Returned (filter (λ x, is_update ex_scop x = true) ex_domain ∩ ex_others)
  ∧ filter (λ x, is_update ex_scop x = true) ex_domain ∩ ex_others
    ⊆ filter (λ x, is_update ex_scop x = true) ex_domain.
Proof.
  apply (reductionUpdates_restrict ex_domain ex_others _ ex_scop).
  - unfold ex_domain. apply union_subseteq_r.
  - apply ex_domain_result.
Defined.

(** X5: the result is made of whole statements: with an instance it
    contains every instance of the domain that has the same statement
    identifier, whatever its coordinates and their number. *)
Theorem reductionUpdates_whole_statements (domain U : union_set) (scop : Scop)
    (x y : point) :
  Matcher.reductionUpdates domain scop = Returned U →
  x ∈ U → y ∈ domain → y.1 = x.1 → y ∈ U.
Proof.
  intros [_ ->]%reductionUpdates_Returned_iff [Hx _]%elem_of_filter Hy Hid.
  apply elem_of_filter. split; [|done].
  apply is_update_true. rewrite Hid. by apply is_update_true.
Qed.

Lemma reductionUpdates_whole_statements_witness :
  (ex_S0, [1; 0]) ∈ filter (λ x, is_update ex_scop x = true) ex_domain.
Proof.
  apply (reductionUpdates_whole_statements ex_domain _ ex_scop
           (ex_S0, [0; 0]) (ex_S0, [1; 0])).
  - apply ex_domain_result.
  - apply elem_of_filter. split; [by vm_compute|].
    unfold ex_domain, ex_sums. set_solver.
  - unfold ex_domain, ex_sums. set_solver.
  - reflexivity.
Defined.

(** X6: a returned result is empty exactly when [isReductionUpdateId] is
    false on every statement identifier of the domain, and it is the
    whole domain exactly when [isReductionUpdateId] is true on all of
    them. *)
Theorem reductionUpdates_empty_or_all (domain U : union_set) (scop : Scop) :
  Matcher.reductionUpdates domain scop = Returned U →
  (U = ∅ ↔ ∀ x, x ∈ domain →
             Matcher.isReductionUpdateId x.1 scop [] = Returned (false, []))
  ∧ (U = domain ↔ ∀ x, x ∈ domain →
       ∃ ds, Matcher.isReductionUpdateId x.1 scop [] = Returned (true, ds)).
Proof.
  intros [Hret ->]%reductionUpdates_Returned_iff. split; split.
  - intros Hempty x Hx. destruct (Hret x Hx) as [[] Hb].
    + assert (x ∈ filter (λ x, is_update scop x = true) domain) as Hin
        by (apply elem_of_filter; split; [by apply is_update_true|done]).
      rewrite Hempty in Hin. by apply elem_of_empty in Hin.
    + apply classify_isReductionUpdateId in Hb as [ds Hds].
      by rewrite Hds, (isReductionUpdateId_false_dims _ _ _ _ Hds).
  - intros Hfalse. apply set_eq. intros x. rewrite elem_of_filter.
    split; [|by intros ?%elem_of_empty].
    intros [Hx Hin]. apply is_update_true in Hx.
    unfold classify in Hx. by rewrite (Hfalse x Hin) in Hx.
  - intros Hall x Hx. apply classify_isReductionUpdateId, is_update_true.
    rewrite <- Hall in Hx. by apply elem_of_filter in Hx as [? _].
  - intros Htrue. apply set_eq. intros x. rewrite elem_of_filter.
    split; [tauto|]. intros Hx. split; [|done].
    by apply is_update_true, classify_isReductionUpdateId, Htrue.
Qed.

Lemma ex_others_result :
  Matcher.reductionUpdates ex_others ex_scop
  = Returned (filter (λ x, is_update ex_scop x = true) ex_others).
Proof.
  apply reductionUpdates_Returned_iff. split; [|done].
  apply well_shaped_returns; [apply ex_others_registered|].
  intros x s Hx. apply ex_domain_well_shaped.
  unfold ex_domain. by apply elem_of_union_r.
Qed.

Lemma reductionUpdates_empty_or_all_witness :
  (filter (λ x, is_update ex_scop x = true) ex_others = ∅
   ↔ ∀ x, x ∈ ex_others →
       Matcher.isReductionUpdateId x.1 ex_scop [] = Returned (false, []))
  ∧ (filter (λ x, is_update ex_scop x = true) ex_others = ex_others
     ↔ ∀ x, x ∈ ex_others →
         ∃ ds, Matcher.isReductionUpdateId x.1 ex_scop [] = Returned (true, ds)).
Proof.
  apply (reductionUpdates_empty_or_all ex_others _ ex_scop).
  apply ex_others_result.
Defined.

(** X7: which failure ends the traversal depends on the order in which
    the sets are visited: for every instance of the domain whose
    identifier is not registered there is an order in which the call
    stops with the diagnostic naming that identifier, and for every
    instance registered to a statement without the shape the
    supported-reduction test relies on there is an order in which the
    call is undefined. *)
Theorem reductionUpdates_first_failure (domain : union_set) (scop : Scop)
    (x : point) :
  x ∈ domain →
  (statements scop !! x.1 = None →
     ∃ l, l ≡ₚ sets_of domain
          ∧ Matcher.reductionUpdates_over l scop
            = Fatal ("id is not a statement in scop" +:+ id_name x.1))
  ∧ (∀ s, statements scop !! x.1 = Some s → well_shaped s = false →
     ∃ l, l ≡ₚ sets_of domain
          ∧ Matcher.reductionUpdates_over l scop = Undefined).
Proof.
  intros Hx.
  assert (extract_set domain (space_of x) ∈ sets_of domain) as Hin
    by (apply elem_of_sets_of; by exists x).
  apply elem_of_Permutation in Hin as [k Hk]. split.
  - intros Hnone. eexists. split; [by symmetry|].
    unfold Matcher.reductionUpdates_over. simpl.
    rewrite reductionUpdates_fn_classify. unfold get_tuple_id. simpl.
    by rewrite classify_unregistered.
  - intros s Hs Hshape. eexists. split; [by symmetry|].
    unfold Matcher.reductionUpdates_over. simpl.
    rewrite reductionUpdates_fn_classify. unfold get_tuple_id. simpl.
    by rewrite (classify_ill_shaped scop x.1 s).
Qed.

Lemma reductionUpdates_first_failure_witness :
  (statements ex_scop !! ex_T = None →
     ∃ l, l ≡ₚ sets_of ex_corrupted
          ∧ Matcher.reductionUpdates_over l ex_scop
            = Fatal ("id is not a statement in scop" +:+ "T"))
  ∧ (∀ s, statements ex_scop !! ex_T = Some s → well_shaped s = false →
     ∃ l, l ≡ₚ sets_of ex_corrupted
          ∧ Matcher.reductionUpdates_over l ex_scop = Undefined).
Proof.
  apply (reductionUpdates_first_failure ex_corrupted ex_scop (ex_T, [0])).
  unfold ex_corrupted. apply elem_of_union. right. by apply elem_of_singleton.
Defined.

(** ** Further properties of [isSingleReductionWithin] *)

(** The pairs of a prefix coordinate and a reduction target that the
    test compares. *)
Lemma isSingleReductionWithin_true (domain : union_set)
    (prefix : multi_union_pw_aff) (scop : Scop) :
  Matcher.isSingleReductionWithin domain prefix scop = true
  ↔ ∀ x y c t u, x ∈ domain → y ∈ domain →
      prefix !! x = Some c → prefix !! y = Some c →
      (x, t) ∈ body_reductions scop → (y, u) ∈ body_reductions scop → t = u.
Proof.
  unfold Matcher.isSingleReductionWithin. rewrite is_single_valued_spec.
  split.
  - intros Hsv x y c t u Hx Hy Hpx Hpy Ht Hu. apply (Hsv c t u).
    + apply elem_of_apply_domain. exists x.
      by rewrite elem_of_intersect_domain, elem_of_union_map_from.
    + apply elem_of_apply_domain. exists y.
      by rewrite elem_of_intersect_domain, elem_of_union_map_from.
  - intros Hsv c t u (x & Hxt & Hpx)%elem_of_apply_domain
      (y & Hyu & Hpy)%elem_of_apply_domain.
    apply elem_of_intersect_domain in Hxt as [Ht Hx].
    apply elem_of_intersect_domain in Hyu as [Hu Hy].
    apply (elem_of_union_map_from prefix) in Hpx, Hpy.
    by apply (Hsv x y c t u).
Qed.

(** X8: a domain that is a single reduction within a prefix stays one
    when it shrinks. *)
Theorem isSingleReductionWithin_subdomain (domain domain' : union_set)
    (prefix : multi_union_pw_aff) (scop : Scop) :
  domain' ⊆ domain →
  Matcher.isSingleReductionWithin domain prefix scop = true →
  Matcher.isSingleReductionWithin domain' prefix scop = true.
Proof.
  rewrite !isSingleReductionWithin_true.
  intros Hsub Hsv x y c t u Hx Hy. apply Hsv; by apply Hsub.
Qed.

Lemma isSingleReductionWithin_subdomain_witness :
  Matcher.isSingleReductionWithin ex_row0 ex_prefix_i ex_scop = true.
Proof.
  apply (isSingleReductionWithin_subdomain ex_sums ex_row0 ex_prefix_i ex_scop).
  - unfold ex_sums, ex_row0. set_solver.
  - by vm_compute.
Defined.

(** X9: the test is true when no instance of the domain has both a
    prefix coordinate and a reduction target: on the empty domain, with
    the empty reduction relation, and with a prefix that is defined on
    no reduction instance of the domain. *)
Theorem isSingleReductionWithin_vacuous (domain : union_set)
    (prefix : multi_union_pw_aff) (scop : Scop) :
  (∀ x t, x ∈ domain → (x, t) ∈ body_reductions scop → prefix !! x = None) →
  Matcher.isSingleReductionWithin domain prefix scop = true.
Proof.
  intros Hnone. apply isSingleReductionWithin_true.
  intros x y c t u Hx _ Hpx _ Ht _. rewrite (Hnone x t Hx Ht) in Hpx. done.
Qed.

Lemma isSingleReductionWithin_vacuous_witness :
  Matcher.isSingleReductionWithin ∅ ex_prefix_root ex_scop = true.
Proof.
  apply (isSingleReductionWithin_vacuous ∅ ex_prefix_root ex_scop).
  intros x t Hx. by apply elem_of_empty in Hx.
Defined.

(** X10: for two domains that no prefix coordinate connects, the union
    is a single reduction within the prefix exactly when both are. *)
Theorem isSingleReductionWithin_union (D1 D2 : union_set)
    (prefix : multi_union_pw_aff) (scop : Scop) :
  (∀ x y c, x ∈ D1 → y ∈ D2 →
            prefix !! x = Some c → prefix !! y = Some c → False) →
  Matcher.isSingleReductionWithin (D1 ∪ D2) prefix scop
  = Matcher.isSingleReductionWithin D1 prefix scop
    && Matcher.isSingleReductionWithin D2 prefix scop.
Proof.
  intros Hsep. apply eq_true_iff_eq.
  rewrite andb_true_iff, !isSingleReductionWithin_true. split.
  - intros Hsv. split; intros x y c t u Hx Hy; apply Hsv; set_solver.
  - intros [Hsv1 Hsv2] x y c t u [Hx|Hx]%elem_of_union [Hy|Hy]%elem_of_union
      Hpx Hpy.
    + by apply (Hsv1 x y c).
    + destruct (Hsep x y c); done.
    + destruct (Hsep y x c); done.
    + by apply (Hsv2 x y c).
Qed.

Lemma isSingleReductionWithin_union_witness :
  Matcher.isSingleReductionWithin (ex_row0 ∪ ex_row1) ex_prefix_i ex_scop
  = Matcher.isSingleReductionWithin ex_row0 ex_prefix_i ex_scop
    && Matcher.isSingleReductionWithin ex_row1 ex_prefix_i ex_scop.
Proof.
  apply (isSingleReductionWithin_union ex_row0 ex_row1 ex_prefix_i ex_scop).
  intros x y c Hx Hy. unfold ex_row0, ex_row1 in Hx, Hy.
  set_unfold in Hx. set_unfold in Hy. destruct_or!; subst x y;
    vm_compute; congruence.
Defined.

(** X11: fixing more coordinates keeps a single reduction single: when
    the coordinate of a prefix determines the coordinate of an outer
    prefix, a domain that is a single reduction within the outer prefix
    is one within the inner prefix. *)
Theorem isSingleReductionWithin_deeper (domain : union_set)
    (outer inner : multi_union_pw_aff) (forget : list Z → list Z)
    (scop : Scop) :
  (∀ x c, inner !! x = Some c → outer !! x = Some (forget c)) →
  Matcher.isSingleReductionWithin domain outer scop = true →
  Matcher.isSingleReductionWithin domain inner scop = true.
Proof.
  rewrite !isSingleReductionWithin_true.
  intros Hforget Hsv x y c t u Hx Hy Hpx Hpy.
  apply (Hsv x y (forget c)); auto.
Qed.

Lemma isSingleReductionWithin_deeper_witness :
  Matcher.isSingleReductionWithin ex_row0 ex_prefix_ik ex_scop = true.
Proof.
  apply (isSingleReductionWithin_deeper ex_row0 ex_prefix_i ex_prefix_ik
           (take 1) ex_scop).
  - assert (map_Forall (λ (x : point) (c : list Z),
                          ex_prefix_i !! x = Some (take 1 c)) ex_prefix_ik)
      as Hall by (apply (bool_decide_unpack _); by vm_compute).
    intros x c Hc. exact (Hall x c Hc).
  - by vm_compute.
Defined.

(** X12: within a prefix that tells the instances of the domain apart,
    the domain is a single reduction exactly when each of its instances
    that has a prefix coordinate has at most one reduction target. *)
Theorem isSingleReductionWithin_injective (domain : union_set)
    (prefix : multi_union_pw_aff) (scop : Scop) :
  (∀ x y c, x ∈ domain → y ∈ domain →
            prefix !! x = Some c → prefix !! y = Some c → x = y) →
  Matcher.isSingleReductionWithin domain prefix scop = true
  ↔ ∀ x t u, x ∈ domain → is_Some (prefix !! x) →
       (x, t) ∈ body_reductions scop → (x, u) ∈ body_reductions scop → t = u.
Proof.
  intros Hinj. rewrite isSingleReductionWithin_true. split.
  - intros Hsv x t u Hx [c Hc]. by apply (Hsv x x c).
  - intros Hfun x y c t u Hx Hy Hpx Hpy Ht Hu.
    assert (x = y) as <- by by apply (Hinj x y c).
    by apply (Hfun x t u).
Qed.

Lemma isSingleReductionWithin_injective_witness :
  Matcher.isSingleReductionWithin ex_row0 ex_prefix_ik ex_scop = true
  ↔ ∀ x t u, x ∈ ex_row0 → is_Some (ex_prefix_ik !! x) →
       (x, t) ∈ body_reductions ex_scop → (x, u) ∈ body_reductions ex_scop →
       t = u.
Proof.
  apply (isSingleReductionWithin_injective ex_row0 ex_prefix_ik ex_scop).
  intros x y c Hx Hy. unfold ex_row0 in Hx, Hy.
  set_unfold in Hx. set_unfold in Hy. destruct_or!; subst x y;
    vm_compute; congruence.
Defined.

(** ** Further properties of [makeLoopIterators] *)

Lemma append_same_length (p q a b : string) :
  String.length p = String.length q → p +:+ a = q +:+ b → p = q.
Proof.
  revert q. induction p as [|c p IH]; intros [|c' q] Hlen Heq; try done.
  simpl in Hlen. injection Hlen as Hlen.
  change (String c (p +:+ a) = String c' (q +:+ b)) in Heq.
  injection Heq as -> Heq. f_equal. by apply IH.
Qed.

Lemma seqZ_take (n m : Z) : n ≤ m → take (Z.to_nat n) (seqZ 0 m) = seqZ 0 n.
Proof.
  intros Hnm. destruct (decide (n ≤ 0)) as [Hn|Hn].
  - rewrite (seqZ_nil 0 n) by done.
    by replace (Z.to_nat n) with 0%nat by lia.
  - replace m with (n + (m - n)) by lia.
    rewrite seqZ_app by lia. apply take_app_length'. by rewrite length_seqZ.
Qed.

Lemma elem_of_makeLoopIterators (ctx : isl_ctx) (n : Z) (prefix : string)
    (ids : list isl_id) (x : isl_id) :
  Codegen.makeLoopIterators ctx n prefix = Returned ids →
  x ∈ ids ↔ ∃ i, 0 ≤ i < n ∧ x = mk_isl_id ctx (prefix +:+ pretty i).
Proof.
  rewrite makeLoopIterators_eq. intros [= <-]. rewrite list_elem_of_fmap.
  setoid_rewrite elem_of_seqZ. unfold Codegen.iterator_name.
  split; intros (i & ? & ?); exists i; split; (done || lia).
Qed.

(** X13: a call with a smaller count returns the first identifiers of a
    call with a larger count, the prefix and the context being the
    same: growing the count only appends identifiers. *)
Theorem makeLoopIterators_take (ctx : isl_ctx) (n m : Z) (prefix : string)
    (ids : list isl_id) :
  n ≤ m →
  Codegen.makeLoopIterators ctx m prefix = Returned ids →
  Codegen.makeLoopIterators ctx n prefix = Returned (take (Z.to_nat n) ids).
Proof.
  intros Hnm. rewrite !makeLoopIterators_eq. intros [= <-].
  by rewrite <- fmap_take, seqZ_take.
Qed.

Lemma makeLoopIterators_take_witness :
  Codegen.makeLoopIterators 7%N 2 "i"
  = Returned (take (Z.to_nat 2)
                [mk_isl_id 7%N "i0"; mk_isl_id 7%N "i1"; mk_isl_id 7%N "i2"]).
Proof.
  apply (makeLoopIterators_take 7%N 2 3 "i"); [lia|reflexivity].
Defined.

(** X14: calls with two different prefixes of the same length never
    return a common identifier, whatever the counts. *)
Theorem makeLoopIterators_prefixes_disjoint (ctx : isl_ctx) (n1 n2 : Z)
    (p1 p2 : string) (ids1 ids2 : list isl_id) (x : isl_id) :
  String.length p1 = String.length p2 → p1 ≠ p2 →
  Codegen.makeLoopIterators ctx n1 p1 = Returned ids1 →
  Codegen.makeLoopIterators ctx n2 p2 = Returned ids2 →
  x ∈ ids1 → x ∉ ids2.
Proof.
  intros Hlen Hne H1 H2.
  rewrite (elem_of_makeLoopIterators _ _ _ _ _ H1),
          (elem_of_makeLoopIterators _ _ _ _ _ H2).
  intros (i & _ & ->) (j & _ & [= Heq]).
  by apply Hne, (append_same_length p1 p2 (pretty i) (pretty j)).
Qed.

Lemma makeLoopIterators_prefixes_disjoint_witness :
  mk_isl_id 7%N "c1" ∉ [mk_isl_id 7%N "t0"; mk_isl_id 7%N "t1"].
Proof.
  apply (makeLoopIterators_prefixes_disjoint 7%N 2 2 "c" "t"
           [mk_isl_id 7%N "c0"; mk_isl_id 7%N "c1"]
           [mk_isl_id 7%N "t0"; mk_isl_id 7%N "t1"]);
    [reflexivity|done|reflexivity|reflexivity|].
  apply list_elem_of_lookup. by exists 1%nat.
Defined.

(** X15: every identifier returned belongs to the context passed in, so
    calls in two different contexts never return a common identifier,
    whatever the counts and the prefixes. *)
Theorem makeLoopIterators_contexts (ctx1 ctx2 : isl_ctx) (n1 n2 : Z)
    (p1 p2 : string) (ids1 ids2 : list isl_id) (x : isl_id) :
  Codegen.makeLoopIterators ctx1 n1 p1 = Returned ids1 →
  Codegen.makeLoopIterators ctx2 n2 p2 = Returned ids2 →
  x ∈ ids1 →
  id_ctx x = ctx1 ∧ (ctx1 ≠ ctx2 → x ∉ ids2).
Proof.
  intros H1 H2.
  rewrite (elem_of_makeLoopIterators _ _ _ _ _ H1),
          (elem_of_makeLoopIterators _ _ _ _ _ H2).
  intros (i & _ & ->). split; [done|].
  intros Hne (j & _ & [= Hctx _]). done.
Qed.

Lemma makeLoopIterators_contexts_witness :
  id_ctx (mk_isl_id 7%N "i0") = 7%N
  ∧ (7%N ≠ 8%N → mk_isl_id 7%N "i0" ∉ [mk_isl_id 8%N "i0"]).
Proof.
  apply (makeLoopIterators_contexts 7%N 8%N 1 1 "i" "i"
           [mk_isl_id 7%N "i0"] [mk_isl_id 8%N "i0"]);
    [reflexivity|reflexivity|].
  by apply list_elem_of_singleton.
Defined.

(** ** What [reductionUpdates] reads, and what its failures tell *)

Lemma isReductionUpdateId_loop_ptrs rs rs' s d d' :
  (λ r, get_ptr (update r)) <$> rs = (λ r, get_ptr (update r)) <$> rs' →
  (Matcher.isReductionUpdateId_loop rs s d).1
  = (Matcher.isReductionUpdateId_loop rs' s d').1.
Proof.
  revert rs'. induction rs as [|r rs IH]; intros [|r' rs'] Hptrs; try done.
  injection Hptrs as Hptr Hptrs. simpl. unfold same_as. rewrite Hptr.
  case_bool_decide; [done|]. by apply IH.
Qed.

Lemma classify_ptrs (scop scop' : Scop) (id : isl_id) :
  statements scop = statements scop' →
  (λ r, get_ptr (update r)) <$> reductions scop
  = (λ r, get_ptr (update r)) <$> reductions scop' →
  classify scop id = classify scop' id.
Proof.
  intros Hst Hptrs. unfold classify.
  destruct (statements scop !! id) as [s|] eqn:Hid.
  - rewrite (isReductionUpdateId_registered id scop [] s) by done.
    rewrite (isReductionUpdateId_registered id scop' [] s) by by rewrite <- Hst.
    destruct (Matcher.isSupportedReduction s) as [[]| |]; simpl; try done.
    f_equal. by apply isReductionUpdateId_loop_ptrs.
  - rewrite (isReductionUpdateId_unregistered id scop) by done.
    by rewrite (isReductionUpdateId_unregistered id scop') by by rewrite <- Hst.
Qed.

(** X16: [reductionUpdates] reads the registry and the addresses of the
    catalog's update nodes, and nothing else of the Scop: two Scops that
    agree on these give the same outcome on every domain, whatever their
    reduction dimensions, the contents of their catalog nodes and their
    body reduction relations. *)
Theorem reductionUpdates_reads (domain : union_set) (scop scop' : Scop) :
  statements scop = statements scop' →
  (λ r, get_ptr (update r)) <$> reductions scop
  = (λ r, get_ptr (update r)) <$> reductions scop' →
  Matcher.reductionUpdates domain scop = Matcher.reductionUpdates domain scop'.
Proof.
  intros Hst Hptrs. unfold Matcher.reductionUpdates, Matcher.reductionUpdates_over.
  generalize union_set_empty. induction (sets_of domain) as [|s l IH];
    intros u; simpl; [done|].
  rewrite !reductionUpdates_fn_classify.
  rewrite (classify_ptrs scop scop') by done.
  destruct (classify scop' (get_tuple_id s)) as [b| |]; simpl; [|done..].
  apply IH.
Qed.

Lemma reductionUpdates_reads_witness :
  Matcher.reductionUpdates ex_domain ex_scop
  = Matcher.reductionUpdates ex_domain
      (mk_Scop (statements ex_scop)
         [mk_Reduction (Stmt_at 1 (Evaluate (IntImm 0))) [];
          mk_Reduction (Stmt_at 2 ex_add_node) [5%nat; 6%nat]] ∅).
Proof.
  apply (reductionUpdates_reads ex_domain ex_scop); reflexivity.
Defined.

Section failures.
Context (scop : Scop).

Lemma foreach_Fatal_inv (l : list isl_set) (u : union_set) (msg : string) :
  foreach l (Matcher.reductionUpdates_fn scop) u = Fatal msg →
  ∃ s, s ∈ l ∧ classify scop (get_tuple_id s) = Fatal msg.
Proof.
  revert u. induction l as [|s l IH]; intros u; simpl; [done|].
  rewrite reductionUpdates_fn_classify.
  destruct (classify scop (get_tuple_id s)) as [b|msg'|] eqn:Hs; simpl.
  - intros (s' & ? & ?)%IH. exists s'. split; [by right|done].
  - intros [= ->]. exists s. split; [left|done].
  - done.
Qed.

Lemma foreach_Undefined_inv (l : list isl_set) (u : union_set) :
  foreach l (Matcher.reductionUpdates_fn scop) u = Undefined →
  ∃ s, s ∈ l ∧ classify scop (get_tuple_id s) = Undefined.
Proof.
  revert u. induction l as [|s l IH]; intros u; simpl; [done|].
  rewrite reductionUpdates_fn_classify.
  destruct (classify scop (get_tuple_id s)) as [b|msg'|] eqn:Hs; simpl.
  - intros (s' & ? & ?)%IH. exists s'. split; [by right|done].
  - done.
  - intros _. exists s. split; [left|done].
Qed.
End failures.

(** X17: in whatever order the sets are visited, the outcome tells what
    the domain holds: a fatal stop carries the diagnostic naming a
    statement identifier of the domain that is not registered, an
    undefined run comes from an identifier of the domain registered to a
    statement without the shape the supported-reduction test relies on,
    and a result is returned only when neither occurs in the domain. *)
Theorem reductionUpdates_outcomes (domain : union_set) (scop : Scop)
    (l : list isl_set) :
  l ≡ₚ sets_of domain →
  (∀ msg, Matcher.reductionUpdates_over l scop = Fatal msg →
     ∃ x, x ∈ domain ∧ statements scop !! x.1 = None
          ∧ msg = "id is not a statement in scop" +:+ id_name x.1)
  ∧ (Matcher.reductionUpdates_over l scop = Undefined →
     ∃ x s, x ∈ domain ∧ statements scop !! x.1 = Some s
            ∧ well_shaped s = false)
  ∧ (returns (Matcher.reductionUpdates_over l scop) →
     all_registered domain scop ∧ all_well_shaped domain scop).
Proof.
  intros Hl. split; [|split].
  - intros msg (s & Hs & Hmsg)%foreach_Fatal_inv.
    rewrite Hl in Hs. apply elem_of_sets_of in Hs as (x & Hx & ->).
    apply classify_fatal in Hmsg as [Hnone ->]. by exists x.
  - intros (s & Hs & Hc)%foreach_Undefined_inv.
    rewrite Hl in Hs. apply elem_of_sets_of in Hs as (x & Hx & ->).
    apply classify_undefined in Hc as (st & Hst & Hshape). by exists x, st.
  - intros [U HU]. apply returns_well_shaped.
    by apply (reductionUpdates_over_Returned_inv scop domain l Hl U).
Qed.

Lemma reductionUpdates_outcomes_witness :
  (∀ msg, Matcher.reductionUpdates_over (sets_of ex_unregistered) ex_scop
          = Fatal msg →
     ∃ x, x ∈ ex_unregistered ∧ statements ex_scop !! x.1 = None
          ∧ msg = "id is not a statement in scop" +:+ id_name x.1)
  ∧ (Matcher.reductionUpdates_over (sets_of ex_unregistered) ex_scop
     = Undefined →
     ∃ x s, x ∈ ex_unregistered ∧ statements ex_scop !! x.1 = Some s
            ∧ well_shaped s = false)
  ∧ (returns (Matcher.reductionUpdates_over (sets_of ex_unregistered) ex_scop) →
     all_registered ex_unregistered ex_scop
     ∧ all_well_shaped ex_unregistered ex_scop).
Proof.
  apply (reductionUpdates_outcomes ex_unregistered ex_scop
           (sets_of ex_unregistered)).
  reflexivity.
Defined.
